(** * A shallow embedding of the antsibull-rs markup parser and renderers

    Strings of the Rust code ([&str], [String]) are modelled as Stdlib
    [string]s holding their UTF-8 bytes, one [ascii] per byte; offsets into
    a string are byte offsets, as [nat]s.  The [.] of the escape regex
    matches a whole character: the backslash, the lead byte after it and
    that character's continuation bytes.  The word boundaries [\b] of the
    command regex test ASCII word characters only; Rust's [\b] also counts
    non-ASCII letters and digits as word characters, so the two agree on
    every input in which no non-ASCII character stands right before a
    command, or right after [HORIZONTALLINE]. *)

From Stdlib Require Import List Bool Arith Lia.
From Stdlib Require Import Ascii String.
From Stdlib Require Import Numbers.DecimalString.
Import ListNotations.
Open Scope string_scope.


(** ** String helpers (slicing as [&s[i..j]], byte access as [s.as_bytes()[i]]) *)

Module Str.

(** [&s[i..]] *)
Fixpoint suffix (i : nat) (s : string) : string :=
  match i, s with
  | O, _ => s
  | S _, EmptyString => EmptyString
  | S i', String _ r => suffix i' r
  end.

(** [&s[i..j]] *)
Definition slice (s : string) (i j : nat) : string := substring i (j - i) s.

(** [s.as_bytes()[i]], [None] out of range *)
Definition byte_at (s : string) (i : nat) : option ascii := get i s.

(** number of leading bytes satisfying [p] *)
Fixpoint count_while (p : ascii -> bool) (s : string) : nat :=
  match s with
  | EmptyString => O
  | String c r => if p c then S (count_while p r) else O
  end.

(** [s.starts_with(p)] *)
Fixpoint starts_with (p s : string) : bool :=
  match p, s with
  | EmptyString, _ => true
  | String c p', String d s' => Ascii.eqb c d && starts_with p' s'
  | String _ _, EmptyString => false
  end.

(** [s.ends_with(" ")] *)
Fixpoint ends_with_space (s : string) : bool :=
  match s with
  | EmptyString => false
  | String c EmptyString => Ascii.eqb c " "
  | String _ r => ends_with_space r
  end.

(** [s.contains(c)] for a single byte [c] *)
Fixpoint contains_char (c : ascii) (s : string) : bool :=
  match s with
  | EmptyString => false
  | String d r => Ascii.eqb c d || contains_char c r
  end.

(** [s.split_once(c)] for a single byte [c] *)
Fixpoint split_once (c : ascii) (s : string) : option (string * string) :=
  match s with
  | EmptyString => None
  | String d r =>
      if Ascii.eqb c d then Some (EmptyString, r)
      else match split_once c r with
           | Some (a, b) => Some (String d a, b)
           | None => None
           end
  end.

(** [s.split(".")] collected into a vector; never empty *)
Fixpoint split_dot (s : string) : list string :=
  match s with
  | EmptyString => [EmptyString]
  | String c r =>
      if Ascii.eqb c "." then EmptyString :: split_dot r
      else match split_dot r with
           | h :: t => String c h :: t
           | [] => [String c EmptyString]
           end
  end.

(** all bytes satisfy [p] *)
Fixpoint for_all (p : ascii -> bool) (s : string) : bool :=
  match s with
  | EmptyString => true
  | String c r => p c && for_all p r
  end.

(** some byte satisfies [p] *)
Fixpoint exists_b (p : ascii -> bool) (s : string) : bool :=
  match s with
  | EmptyString => false
  | String c r => p c || exists_b p r
  end.

(** [s] contains [p] as a substring *)
Fixpoint contains (p s : string) : bool :=
  starts_with p s ||
  match s with
  | EmptyString => false
  | String _ r => contains p r
  end.

Definition char (c : ascii) : string := String c EmptyString.

(** the double quote, as a one-byte string *)
Definition dquote : string := char (ascii_of_nat 34).

(** [format!("{}", n)] for an unsigned integer *)
Definition of_nat (n : nat) : string := NilEmpty.string_of_uint (Nat.to_uint n).

(** a lower-case hexadecimal digit, [format!("{:x}", n)] for [n < 16] *)
Definition hex_digit_lower (n : nat) : ascii :=
  ascii_of_nat (if Nat.ltb n 10 then 48 + n else 87 + n).

(** [char::escape_unicode] of an ASCII code point: [\u{..}] with the
    lower-case hexadecimal value and no leading zeros *)
Definition unicode_escape (n : nat) : string :=
  "\u{" ++ (if Nat.ltb n 16 then char (hex_digit_lower n)
            else String (hex_digit_lower (n / 16)) (char (hex_digit_lower (n mod 16))))
  ++ "}".

(** [format!("{:?}", s)]: Rust's [Debug] quoting of a string, character by
    character with [char::escape_debug_ext] (double quotes escaped, single
    quotes not).  For ASCII this is exact: [\0], [\t], [\r], [\n], [\\],
    a backslash before the double quote, the other control characters as
    [\u{..}], the printable ones as they are.  Bytes of non-ASCII characters are copied: Rust copies the
    printable ones too, and escapes the others (by Unicode tables that the
    model leaves out). *)
Fixpoint debug_body (s : string) : string :=
  match s with
  | EmptyString => EmptyString
  | String c r =>
      (if Nat.eqb (nat_of_ascii c) 0 then "\0"
       else if Ascii.eqb c (ascii_of_nat 9) then "\t"
       else if Ascii.eqb c (ascii_of_nat 13) then "\r"
       else if Ascii.eqb c (ascii_of_nat 10) then "\n"
       else if Ascii.eqb c "\" then "\\"
       else if Ascii.eqb c (ascii_of_nat 34) then "\" ++ dquote
       else if Nat.ltb (nat_of_ascii c) 32 || Nat.eqb (nat_of_ascii c) 127
       then unicode_escape (nat_of_ascii c)
       else char c) ++ debug_body r
  end.

Definition debug (s : string) : string := dquote ++ debug_body s ++ dquote.

End Str.

Import Str.

(** [std::borrow::Cow<str>] *)
Inductive Cow : Type :=
| Borrowed (s : string)
| Owned (s : string).

Definition cow_str (c : Cow) : string :=
  match c with Borrowed s => s | Owned s => s end.

(** ** [util/stringbuilder.rs]: an appender holds the text pushed so far *)

Definition Appender := string.
Definition push_str (a : Appender) (v : string) : Appender := a ++ v.
Definition push_owned_string (a : Appender) (v : string) : Appender := a ++ v.
Definition push_cow_str (a : Appender) (v : Cow) : Appender := a ++ cow_str v.

(** ** [markup/html_helper.rs] *)

Module HtmlHelper.

Definition in_range (lo hi : ascii) (c : ascii) : bool :=
  Nat.leb (nat_of_ascii lo) (nat_of_ascii c) && Nat.leb (nat_of_ascii c) (nat_of_ascii hi).

Definition is_one_of (cs : string) (c : ascii) : bool := contains_char c cs.

Definition is_url_safe (c : ascii) : bool :=
  in_range "A" "Z" c || in_range "a" "z" c || in_range "0" "9" c
  || is_one_of ("-_.!~*" ++ char (ascii_of_nat 39) ++ "();/?:@&=+$,#") c.

Definition is_html_safe (c : ascii) : bool :=
  negb (is_one_of "<>&" c).

Definition hex_digit (value : nat) : ascii :=
  if Nat.leb value 9 then ascii_of_nat (nat_of_ascii "0" + value)
  else if Nat.leb value 15 then ascii_of_nat (nat_of_ascii "A" + value - 10)
  else ascii_of_nat 0.

Definition percent_encode (c : ascii) : string :=
  let v := nat_of_ascii c in
  String "%" (String (hex_digit (Nat.shiftr v 4)) (String (hex_digit (Nat.land v 15)) EmptyString)).

(** The loop shared by [URLEscaper::escape], [URLEscaper::escape_with_html_escape]
    and [HTMLEscaper::escape]: copy the longest run of safe bytes from
    [index], borrow the input if that run is all of it, otherwise replace the
    unsafe byte at [next_index] and continue after it.  [fuel] bounds the
    number of rounds; [length input + 1] rounds always suffice since each
    round consumes at least one byte. *)
Fixpoint escape_loop (safe : ascii -> bool) (replace : ascii -> string)
    (input : string) (fuel index : nat) (result : string) : Cow :=
  match fuel with
  | O => Owned result
  | S fuel' =>
      let length := String.length input in
      let next_index := index + count_while safe (suffix index input) in
      if (Nat.eqb index 0) && (Nat.eqb next_index length) then Borrowed input
      else
        let result := if Nat.ltb index next_index
                      then result ++ slice input index next_index else result in
        if Nat.eqb next_index length then Owned result
        else
          match byte_at input next_index with
          | Some c => escape_loop safe replace input fuel' (next_index + 1) (result ++ replace c)
          | None => Owned result
          end
  end.

Definition run_escape (safe : ascii -> bool) (replace : ascii -> string) (s : string) : Cow :=
  escape_loop safe replace s (S (String.length s)) 0 EmptyString.

(** [URLEscaper::escape] *)
Definition url_escape (url : string) : Cow :=
  run_escape is_url_safe percent_encode url.

(** [URLEscaper::escape_with_html_escape] *)
Definition url_escape_with_html_escape (url : string) : Cow :=
  run_escape (fun c => is_url_safe c && is_html_safe c)
    (fun c => if Ascii.eqb c "&" then "&amp;" else percent_encode c) url.

(** [HTMLEscaper::escape] *)
Definition html_escape (text : string) : Cow :=
  run_escape is_html_safe
    (fun c => if Ascii.eqb c "<" then "&lt;"
              else if Ascii.eqb c ">" then "&gt;"
              else if Ascii.eqb c "&" then "&amp;" else EmptyString) text.

End HtmlHelper.

(** ** [markup/rst_helper.rs] *)

Module RstHelper.

Definition is_rst_safe (c : ascii) : bool := negb (contains_char c "\<>_*`").

(** the loop of [RSTEscaper::escape]; [fuel] as for [HtmlHelper.escape_loop] *)
Fixpoint rst_loop (text : string) (escape_ending_whitespace can_borrow : bool)
    (fuel index : nat) (result : string) : Cow :=
  match fuel with
  | O => Owned result
  | S fuel' =>
      let length := String.length text in
      let next_index := index + count_while is_rst_safe (suffix index text) in
      if (Nat.eqb index 0) && can_borrow && (Nat.eqb next_index length) then Borrowed text
      else
        let result := if Nat.ltb index next_index
                      then result ++ slice text index next_index else result in
        if Nat.eqb next_index length then
          Owned (if escape_ending_whitespace && (Nat.ltb index length) && ends_with_space text
                 then result ++ "\ " else result)
        else
          let result := result ++ "\" in
          let index := next_index + 1 in
          rst_loop text escape_ending_whitespace can_borrow fuel' index
            (result ++ slice text next_index index)
  end.

(** [RSTEscaper::escape] *)
Definition rst_escape (text : string) (escape_ending_whitespace must_not_be_empty : bool) : Cow :=
  let length := String.length text in
  if Nat.eqb length 0 then
    (if must_not_be_empty then Owned "\ " else Borrowed text)
  else
    let '(result, can_borrow) :=
      if escape_ending_whitespace then
        (if match byte_at text 0 with Some c => Ascii.eqb c " " | None => false end then ("\ ", false)
         else if ends_with_space text then (EmptyString, false)
         else (EmptyString, true))
      else (EmptyString, true) in
    rst_loop text escape_ending_whitespace can_borrow (S length) 0 result.

End RstHelper.

(** ** [markup/md_helper.rs]: [md_escape_re.replace_all(text, "\\$1")];
    [Regex::replace_all] borrows its input when nothing matches. *)

Module MdHelper.

Definition is_md_special (c : ascii) : bool :=
  contains_char c ("!" ++ dquote ++ "#$%&'()*+,:;<=>?@[\]^_`{|}~.-").

Fixpoint md_replace (s : string) : string :=
  match s with
  | EmptyString => EmptyString
  | String c r => (if is_md_special c then String "\" (char c) else char c) ++ md_replace r
  end.

Definition md_escape (text : string) : Cow :=
  if exists_b is_md_special text then Owned (md_replace text) else Borrowed text.

End MdHelper.

(** ** [markup/dom.rs] *)

Record PluginIdentifier : Type := mkPluginIdentifier {
  fqcn : string;
  type_ : string;
}.

Definition plugin_identifier_eqb (a b : PluginIdentifier) : bool :=
  String.eqb (fqcn a) (fqcn b) && String.eqb (type_ a) (type_ b).

Inductive Part : Type :=
| Text (text : string)
| Italic (text : string)
| Bold (text : string)
| Code (text : string)
| Module (fqcn : string)
| Plugin (plugin : PluginIdentifier)
| URL (url : string)
| Link (text url : string)
| RSTRef (text ref : string)
| OptionName (plugin : option PluginIdentifier) (entrypoint : option string)
    (link : list string) (name : string) (value : option string)
| OptionValue (value : string)
| EnvVariable (name : string)
| ReturnValue (plugin : option PluginIdentifier) (entrypoint : option string)
    (link : list string) (name : string) (value : option string)
| HorizontalLine
| Error (message : string).

Record PartWithSource : Type := mkPartWithSource {
  part : Part;
  source : string;
}.

(** [format::OptionLike] *)
Inductive OptionLike : Type := OptionLike_Option | OptionLike_RetVal.

(** ** [markup/html_antsibull.rs] *)

Module AntsibullHTML.
Import HtmlHelper.

Definition append_tag (a : Appender) (start text end_ : string) : Appender :=
  push_str (push_cow_str (push_str a start) (html_escape text)) end_.

Definition append_link (a : Appender) (text url : string) : Appender :=
  let a := push_str a "<a href='" in
  let a := push_cow_str a (url_escape_with_html_escape url) in
  let a := push_str a "'>" in
  let a := push_cow_str a (html_escape text) in
  push_str a "</a>".

Definition append_fqcn (a : Appender) (fqcn : string) (url : option string) : Appender :=
  match url with
  | Some u =>
      let a := push_str a "<a href='" in
      let a := push_owned_string a (cow_str (url_escape_with_html_escape u)) in
      let a := push_str a "' class='module'>" in
      let a := push_cow_str a (html_escape fqcn) in
      push_str a "</a>"
  | None =>
      let a := push_str a "<span class='module'>" in
      let a := push_cow_str a (html_escape fqcn) in
      push_str a "</span>"
  end.

Definition append_option_like (a : Appender) (name : string) (value : option string)
    (what : OptionLike) (url : option string) : Appender :=
  let a := push_str a ("<code class=" ++ dquote) in
  let is_option := match what with OptionLike_Option => true | OptionLike_RetVal => false end in
  let strong := is_option && match value with None => true | Some _ => false end in
  let a := push_str a (if strong then "ansible-option"
                       else if is_option then "ansible-option-value"
                       else "ansible-return-value") in
  let a := push_str a (" literal notranslate" ++ dquote ++ ">") in
  let a := if strong then push_str a "<strong>" else a in
  let a := match url with
           | Some u =>
               let a := push_str a ("<a class=" ++ dquote ++ "reference internal" ++ dquote
                                    ++ " href=" ++ dquote) in
               let a := push_owned_string a (cow_str (url_escape_with_html_escape u)) in
               push_str a (dquote ++ "><span class=" ++ dquote ++ "std std-ref" ++ dquote
                           ++ "><span class=" ++ dquote ++ "pre" ++ dquote ++ ">")
           | None => a
           end in
  let a := push_cow_str a (html_escape name) in
  let a := match value with
           | Some v => push_cow_str (push_str a "=") (html_escape v)
           | None => a
           end in
  let a := match url with Some _ => push_str a "</span></span></a>" | None => a end in
  let a := if strong then push_str a "</strong>" else a in
  push_str a "</code>".

(** [<AntsibullHTMLFormatter as Formatter>::append] *)
Definition append (a : Appender) (p : Part) (url : option string) : Appender :=
  match p with
  | Text text => push_cow_str a (html_escape text)
  | Bold text => append_tag a "<b>" text "</b>"
  | Italic text => append_tag a "<em>" text "</em>"
  | Code text => append_tag a "<code class='docutils literal notranslate'>" text "</code>"
  | HorizontalLine => push_str a "<hr/>"
  | OptionValue value =>
      append_tag a ("<code class=" ++ dquote ++ "ansible-value literal notranslate" ++ dquote ++ ">")
        value "</code>"
  | EnvVariable name =>
      append_tag a ("<code class=" ++ dquote ++ "xref std std-envvar literal notranslate"
                    ++ dquote ++ ">") name "</code>"
  | Error message =>
      let a := push_str a ("<span class=" ++ dquote ++ "error" ++ dquote ++ ">ERROR while parsing: ") in
      let a := push_cow_str a (html_escape message) in
      push_str a "</span>"
  | RSTRef text _ => append_tag a "<span class='module'>" text "</span>"
  | Link text url' => append_link a text url'
  | URL url' => append_link a url' url'
  | Module fqcn => append_fqcn a fqcn url
  | Plugin plugin => append_fqcn a (fqcn plugin) url
  | OptionName _ _ _ name value => append_option_like a name value OptionLike_Option url
  | ReturnValue _ _ _ name value => append_option_like a name value OptionLike_RetVal url
  end.

End AntsibullHTML.

(** ** [markup/rst_antsibull.rs] (the parts the claims are about) *)

Module AntsibullRST.
Import HtmlHelper RstHelper.

Definition append_link (a : Appender) (text url : string) : Appender :=
  if Nat.eqb (String.length text) 0 then a
  else if Nat.eqb (String.length url) 0 then push_cow_str a (rst_escape text false false)
  else
    let a := push_str a "\ `" in
    let a := push_cow_str a (rst_escape text true false) in
    let a := push_str a " <" in
    let a := push_cow_str a (url_escape url) in
    push_str a ">`__\ ".

Definition append_tag (a : Appender) (start text end_ : string) : Appender :=
  push_str (push_cow_str (push_str a start) (rst_escape text true true)) end_.

Definition append_fqcn (a : Appender) (fqcn type_ : string) : Appender :=
  let a := push_str a "\ :ref:`" in
  let a := push_cow_str a (rst_escape fqcn false false) in
  let a := push_str a " <ansible_collections." in
  let a := push_str a fqcn in
  let a := push_str a "_" in
  let a := push_str a type_ in
  push_str a ">`\ ".

Definition append_option_like (a : Appender) (plugin : option PluginIdentifier)
    (entrypoint : option string) (name : string) (value : option string)
    (what : OptionLike) : Appender :=
  let a := push_str a "\ :" in
  let a := push_str a (match what with OptionLike_Option => "ansopt"
                                     | OptionLike_RetVal => "ansretval" end) in
  let a := push_str a ":`" in
  let builder := match plugin with
                 | Some p => fqcn p ++ "#" ++ type_ p ++ ":"
                 | None => EmptyString
                 end in
  let builder := match entrypoint with
                 | Some ep => builder ++ ep ++ ":"
                 | None => builder
                 end in
  let builder := builder ++ name in
  let builder := match value with Some v => builder ++ "=" ++ v | None => builder end in
  let a := push_owned_string a (cow_str (rst_escape builder true true)) in
  push_str a "`\ ".

(** [<AntsibullRSTFormatter as Formatter>::append] *)
Definition append (a : Appender) (p : Part) (_url : option string) : Appender :=
  match p with
  | Text text => push_cow_str a (rst_escape text false false)
  | Bold text => append_tag a "\ :strong:`" text "`\ "
  | Italic text => append_tag a "\ :emphasis:`" text "`\ "
  | Code text => append_tag a "\ :literal:`" text "`\ "
  | HorizontalLine => push_str a (String (ascii_of_nat 10) (String (ascii_of_nat 10)
                        (".. raw:: html" ++ String (ascii_of_nat 10) (String (ascii_of_nat 10)
                        ("  <hr>" ++ String (ascii_of_nat 10) (char (ascii_of_nat 10)))))))
  | OptionValue value => append_tag a "\ :ansval:`" value "`\ "
  | EnvVariable name => append_tag a "\ :envvar:`" name "`\ "
  | Error message =>
      let a := push_str a "\ :strong:`ERROR while parsing`\ : " in
      let a := push_cow_str a (rst_escape message true true) in
      push_str a "\ "
  | RSTRef text ref =>
      let a := push_str a "\ :ref:`" in
      let a := push_cow_str a (rst_escape text true true) in
      let a := push_str a " <" in
      let a := push_str a ref in
      push_str a ">`\ "
  | Link text url => append_link a text url
  | URL url => append_link a url url
  | Module fqcn => append_fqcn a fqcn "module"
  | Plugin plugin => append_fqcn a (fqcn plugin) (type_ plugin)
  | OptionName plugin entrypoint _ name value =>
      append_option_like a plugin entrypoint name value OptionLike_Option
  | ReturnValue plugin entrypoint _ name value =>
      append_option_like a plugin entrypoint name value OptionLike_RetVal
  end.

End AntsibullRST.

(** ** [markup/format.rs] *)

Module Format.

(** the [LinkProvider] trait *)
Record LinkProvider : Type := mkLinkProvider {
  plugin_link : PluginIdentifier -> option string;
  plugin_option_like_link :
    PluginIdentifier -> option string -> OptionLike -> list string -> bool -> option string;
}.

Definition NoLinkProvider : LinkProvider :=
  mkLinkProvider (fun _ => None) (fun _ _ _ _ _ => None).

Definition part_url (link_provider : LinkProvider)
    (current_plugin : option PluginIdentifier) (p : Part) : option string :=
  let is_current rcp := match current_plugin with
                        | Some cp => plugin_identifier_eqb rcp cp
                        | None => false
                        end in
  match p with
  | Module fqcn => plugin_link link_provider (mkPluginIdentifier fqcn "module")
  | Plugin plugin => plugin_link link_provider plugin
  | OptionName (Some rcp) entrypoint link _ _ =>
      plugin_option_like_link link_provider rcp entrypoint OptionLike_Option link (is_current rcp)
  | ReturnValue (Some rcp) entrypoint link _ _ =>
      plugin_option_like_link link_provider rcp entrypoint OptionLike_RetVal link (is_current rcp)
  | _ => None
  end.

(** [append_paragraph]; the [Formatter] is its [append] function *)
Definition append_paragraph (a : Appender) (paragraph : list Part)
    (formatter : Appender -> Part -> option string -> Appender)
    (link_provider : LinkProvider) (par_start par_end par_empty : string)
    (current_plugin : option PluginIdentifier) : Appender :=
  let a := push_str a par_start in
  let a := fold_left (fun a p => formatter a p (part_url link_provider current_plugin p))
             paragraph a in
  let a := match paragraph with [] => push_str a par_empty | _ => a end in
  push_str a par_end.

(** [append_paragraphs]: [par_sep] before every paragraph but the first *)
Definition append_paragraphs (a : Appender) (paragraphs : list (list Part))
    (formatter : Appender -> Part -> option string -> Appender)
    (link_provider : LinkProvider) (par_start par_end par_sep par_empty : string)
    (current_plugin : option PluginIdentifier) : Appender :=
  snd (fold_left (fun (st : bool * Appender) paragraph =>
                    let '(first, a) := st in
                    let a := if first then a else push_str a par_sep in
                    (false, append_paragraph a paragraph formatter link_provider
                              par_start par_end par_empty current_plugin))
                 paragraphs (true, a)).

End Format.

(** [html_antsibull::append_antsibull_html_paragraph] *)
Definition append_antsibull_html_paragraph (a : Appender) (paragraph : list Part)
    (link_provider : Format.LinkProvider) (current_plugin : option PluginIdentifier) : Appender :=
  Format.append_paragraph a paragraph AntsibullHTML.append link_provider "<p>" "</p>" ""
    current_plugin.

(** [html_antsibull::append_antsibull_html_paragraphs] *)
Definition append_antsibull_html_paragraphs (a : Appender) (paragraphs : list (list Part))
    (link_provider : Format.LinkProvider) (current_plugin : option PluginIdentifier) : Appender :=
  Format.append_paragraphs a paragraphs AntsibullHTML.append link_provider "<p>" "</p>" "" ""
    current_plugin.

(** ** [markup/parse.rs] *)

Module Parse.

Inductive result (A : Type) : Type :=
| Ok (a : A)
| Err (e : string).
Arguments Ok {A} a.
Arguments Err {A} e.

Record Command : Type := mkCommand {
  command : string;
  command_match : string;
  parameters : nat;
  escaped_arguments : bool;
  old_markup : bool;
}.

Definition new_classic (command command_match : string) (parameters : nat) : Command :=
  mkCommand command command_match parameters false true.

Definition new_modern (command command_match : string) (parameters : nat) : Command :=
  mkCommand command command_match parameters true false.

Definition ITALICS := new_classic "I" "I(" 1.
Definition BOLD := new_classic "B" "B(" 1.
Definition MODULE := new_classic "M" "M(" 1.
Definition URL' := new_classic "U" "U(" 1.
Definition LINK := new_classic "L" "L(" 2.
Definition RSTREF := new_classic "R" "R(" 2.
Definition CODE := new_classic "C" "C(" 1.
Definition HORIZONTAL_LINE := new_classic "HORIZONTALLINE" "HORIZONTALLINE" 0.
Definition PLUGIN := new_modern "P" "P(" 1.
Definition ENVVAR := new_modern "E" "E(" 1.
Definition OPTION_VALUE := new_modern "V" "V(" 1.
Definition OPTION_NAME := new_modern "O" "O(" 1.
Definition RETURN_VALUE := new_modern "RV" "RV(" 1.

Definition ALL_COMMANDS : list Command :=
  [ITALICS; BOLD; MODULE; URL'; LINK; RSTREF; CODE; HORIZONTAL_LINE;
   PLUGIN; ENVVAR; OPTION_VALUE; OPTION_NAME; RETURN_VALUE].

(** A compiled [Parser] is its command alternation, in order: the regex
    [(\bI\(|\bB\(|...|\bHORIZONTALLINE\b|...)] and the [command_map]
    both come from this list. *)
Definition Parser := list Command.

(** [Parser::new]: refuses a duplicate [command_match] *)
Fixpoint find_duplicate (seen : list string) (commands : list Command) : option Command :=
  match commands with
  | [] => None
  | c :: cs => if existsb (String.eqb (command_match c)) seen then Some c
               else find_duplicate (command_match c :: seen) cs
  end.

Definition Parser_new (commands : list Command) : result Parser :=
  match find_duplicate [] commands with
  | Some c => Err ("Duplicate command " ++ debug (command_match c))
  | None => Ok commands
  end.

Definition unwrap_parser (r : result Parser) : Parser :=
  match r with Ok p => p | Err _ => [] end.

Definition CLASSIC_MARKUP_PARSER : Parser :=
  unwrap_parser (Parser_new (filter old_markup ALL_COMMANDS)).
Definition FULL_PARSER : Parser := unwrap_parser (Parser_new ALL_COMMANDS).

(** [command_map.get(m)] *)
Definition command_map_get (parser : Parser) (m : string) : option Command :=
  find (fun c => String.eqb (command_match c) m) parser.

(** *** The regular expressions of the parser *)

(** [\w] on one byte: the ASCII word characters (Rust's [\w] also takes
    non-ASCII letters and digits, which the model leaves out) *)
Definition is_word_char (c : ascii) : bool :=
  HtmlHelper.in_range "a" "z" c || HtmlHelper.in_range "A" "Z" c
  || HtmlHelper.in_range "0" "9" c || Ascii.eqb c "_".

Definition is_word_at (s : string) (i : nat) : bool :=
  match byte_at s i with Some c => is_word_char c | None => false end.

(** [\b] at offset [i] *)
Definition word_boundary (s : string) (i : nat) : bool :=
  xorb (match i with O => false | S k => is_word_at s k end) (is_word_at s i).

(** the alternative [\b<command_match>] (followed by [\b] for commands without
    parameters) matches at offset [i] *)
Definition command_matches_at (s : string) (i : nat) (c : Command) : bool :=
  word_boundary s i && starts_with (command_match c) (suffix i s)
  && (if Nat.eqb (parameters c) 0
      then word_boundary s (i + String.length (command_match c)) else true).

(** leftmost-first search: the leftmost offset where an alternative matches,
    and there the first alternative; the match is [(start, end)] *)
Fixpoint find_command_from (parser : Parser) (s : string) (n i : nat) : option (nat * nat) :=
  match n with
  | O => None
  | S n' =>
      match find (command_matches_at s i) parser with
      | Some c => Some (i, i + String.length (command_match c))
      | None => find_command_from parser s n' (S i)
      end
  end.

(** [parser.regex.find_at(s, pos)] *)
Definition regex_find_at (parser : Parser) (s : string) (pos : nat) : option (nat * nat) :=
  find_command_from parser s (String.length s - pos) pos.

Definition newline : ascii := ascii_of_nat 10.

(** the alternative [\\.] matches at offset [i] ([.] does not match a newline) *)
Definition escape_at (s : string) (i : nat) : bool :=
  match byte_at s i, byte_at s (S i) with
  | Some b, Some c => Ascii.eqb b "\" && negb (Ascii.eqb c newline)
  | _, _ => false
  end.

(** a UTF-8 continuation byte, [0x80..=0xBF] *)
Definition is_utf8_continuation (c : ascii) : bool :=
  Nat.leb 128 (nat_of_ascii c) && Nat.ltb (nat_of_ascii c) 192.

(** the number of bytes of the character that starts at byte [j]: its lead
    byte and the continuation bytes after it (in the valid UTF-8 of a
    [&str], exactly the bytes of that character) *)
Definition char_len_at (s : string) (j : nat) : nat :=
  S (count_while is_utf8_continuation (suffix (S j) s)).

(** the end of the match of [\\.] at offset [i]: [.] takes the whole
    character after the backslash *)
Definition escape_end (s : string) (i : nat) : nat := S i + char_len_at s (S i).

Definition is_space (c : ascii) : bool := Ascii.eqb c " ".

(** the alternative [ *, *] at offset [i]: its end *)
Definition comma_at (s : string) (i : nat) : option nat :=
  let k := i + count_while is_space (suffix i s) in
  match byte_at s k with
  | Some c => if Ascii.eqb c "," then Some (S k + count_while is_space (suffix (S k) s)) else None
  | None => None
  end.

Fixpoint find_escape_or_comma_from (s : string) (n i : nat) : option (nat * nat) :=
  match n with
  | O => None
  | S n' =>
      if escape_at s i then Some (i, escape_end s i)
      else match comma_at s i with
           | Some e => Some (i, e)
           | None => find_escape_or_comma_from s n' (S i)
           end
  end.

(** [escape_or_comma.find_at(s, pos)] for the regex [\\.| *, *] *)
Definition find_escape_or_comma (s : string) (pos : nat) : option (nat * nat) :=
  find_escape_or_comma_from s (String.length s - pos) pos.

Fixpoint find_escape_or_closing_from (s : string) (n i : nat) : option (nat * nat) :=
  match n with
  | O => None
  | S n' =>
      if escape_at s i then Some (i, escape_end s i)
      else match byte_at s i with
           | Some c => if Ascii.eqb c ")" then Some (i, S i)
                       else find_escape_or_closing_from s n' (S i)
           | None => find_escape_or_closing_from s n' (S i)
           end
  end.

(** [escape_or_closing.find_at(s, pos)] for the regex [\\.|\)] *)
Definition find_escape_or_closing (s : string) (pos : nat) : option (nat * nat) :=
  find_escape_or_closing_from s (String.length s - pos) pos.

Fixpoint find_char_from (c : ascii) (s : string) (n i : nat) : option nat :=
  match n with
  | O => None
  | S n' =>
      match byte_at s i with
      | Some d => if Ascii.eqb c d then Some i else find_char_from c s n' (S i)
      | None => None
      end
  end.

(** [find_at(slice, pat, at)] for a one-byte pattern *)
Definition find_at (s : string) (c : ascii) (at_ : nat) : option nat :=
  find_char_from c s (String.length s - at_) at_.

(** *** [StringParser] *)

Inductive Token : Type :=
| End
| TokText (text : string) (start end_ : nat)
| UnescapedCommand (command : Command) (parameters : list string) (start end_ : nat)
| EscapedCommand (command : Command) (parameters : list string) (start end_ : nat)
| TokError (message : string) (start end_ : nat).

(** [get_source] *)
Definition get_source (input : string) (token : Token) : option string :=
  match token with
  | End => None
  | TokText _ start end_ => Some (slice input start end_)
  | EscapedCommand _ _ start end_ => Some (slice input start end_)
  | UnescapedCommand _ _ start end_ => Some (slice input start end_)
  | TokError _ start end_ => Some (slice input start end_)
  end.

Definition closing_error : string :=
  "Cannot find closing " ++ dquote ++ ")" ++ dquote ++ " after last parameter".

Definition comma_error (n : nat) : string :=
  "Cannot find comma separating parameter " ++ of_nat n ++ " from the next one".

Section StringParser.

(** the fields of a [StringParser] that stay fixed; [position] is passed
    around explicitly *)
Variable input : string.
Variable parser : Parser.
Variable strict : bool.
Variable helpful_errors : bool.
Variable where_ : option string.

Let length := String.length input.

(** [StringParser::strip] *)
Fixpoint strip_left_loop (n l r : nat) : nat :=
  match n with
  | O => l
  | S n' =>
      if Nat.ltb l r && match byte_at input l with Some c => Nat.eqb (nat_of_ascii c) 32
                                               | None => false end
      then strip_left_loop n' (S l) r else l
  end.

Fixpoint strip_right_loop (n l r : nat) : nat :=
  match n with
  | O => r
  | S n' =>
      if Nat.ltb l r && match byte_at input r with Some c => Nat.eqb (nat_of_ascii c) 32
                                               | None => false end
      then strip_right_loop n' l (r - 1) else r
  end.

Definition strip (left right : nat) (strip_left strip_right : bool) : nat * nat :=
  let l := if strip_left then strip_left_loop (right - left) left right else left in
  let r := if strip_right then strip_right_loop (right - l) l right else right in
  (l, r).

(** [StringParser::_process_match]: the new position and [Ok(is_separator)]
    with the argument built so far, or the error *)
Definition process_match (m : nat * nat) (position : nat) (argument : string)
    : nat * result (bool * string) :=
  let '(m_start, m_end) := m in
  let argument := if Nat.ltb position m_start
                  then argument ++ slice input position m_start else argument in
  let position := m_end in
  match byte_at input m_start with
  | Some b =>
      if negb (Ascii.eqb b "\") then (position, Ok (true, argument))
      else
        let escaped := slice input (m_start + 1) position in
        if strict && negb (String.eqb escaped ")") && negb (String.eqb escaped "\")
        then (m_end, Err ("Unnecessarily escaped " ++ debug escaped))
        else (position, Ok (false, argument ++ escaped))
  | None => (position, Ok (true, argument))
  end.

(** the inner [loop] of [parse_escaped_call]: collect one argument up to the
    next separator found by [finder]; [fuel] bounds the rounds
    ([length + 1] suffice: every round moves the position forward) *)
Fixpoint collect_argument (finder : nat -> option (nat * nat)) (not_found : string)
    (fuel position : nat) (argument : string) : nat * result string :=
  match fuel with
  | O => (length, Err not_found)
  | S fuel' =>
      match finder position with
      | None => (length, Err not_found)
      | Some m =>
          match process_match m position argument with
          | (p, Err e) => (p, Err e)
          | (p, Ok (true, arg)) => (p, Ok arg)
          | (p, Ok (false, arg)) => collect_argument finder not_found fuel' p arg
          end
      end
  end.

(** the [while commas_left > 0] loop of [parse_escaped_call] *)
Fixpoint escaped_commas (count commas_left position : nat) (parameters : list string)
    : nat * result (list string) :=
  match commas_left with
  | O => (position, Ok parameters)
  | S commas_left' =>
      match collect_argument (find_escape_or_comma input) (comma_error (count - commas_left))
              (S length) position EmptyString with
      | (p, Err e) => (p, Err e)
      | (p, Ok arg) => escaped_commas count commas_left' p (app parameters [arg])
      end
  end.

(** [StringParser::parse_escaped_call] *)
Definition parse_escaped_call (count position : nat) : nat * result (list string) :=
  match count with
  | O => (position, Ok [])
  | S _ =>
      match escaped_commas count (count - 1) position [] with
      | (p, Err e) => (p, Err e)
      | (p, Ok parameters) =>
          match collect_argument (find_escape_or_closing input) closing_error
                  (S length) p EmptyString with
          | (p', Err e) => (p', Err e)
          | (p', Ok arg) => (p', Ok (app parameters [arg]))
          end
      end
  end.

(** the [while commas_left > 0] loop of [parse_unescaped_call]; also returns [first] *)
Fixpoint unescaped_commas (count commas_left position : nat) (first : bool)
    (parameters : list string) : nat * result (bool * list string) :=
  match commas_left with
  | O => (position, Ok (first, parameters))
  | S commas_left' =>
      match find_at input "," position with
      | None => (length, Err (comma_error (count - commas_left)))
      | Some index =>
          let '(start, end_) := strip position index (negb first) true in
          unescaped_commas count commas_left' (index + 1) false
            (app parameters [slice input start end_])
      end
  end.

(** [StringParser::parse_unescaped_call] *)
Definition parse_unescaped_call (count position : nat) : nat * result (list string) :=
  match count with
  | O => (position, Ok [])
  | S _ =>
      match unescaped_commas count (count - 1) position true [] with
      | (p, Err e) => (p, Err e)
      | (p, Ok (first, parameters)) =>
          match find_at input ")" p with
          | None => (length, Err closing_error)
          | Some index =>
              let '(start, end_) := strip p index (negb first) false in
              (index + 1, Ok (app parameters [slice input start end_]))
          end
      end
  end.

(** [StringParser::_compose_parsing_error] *)
Definition compose_parsing_error (command : Command) (start end_ : nat) (error : string) : string :=
  let error_source :=
    if helpful_errors then dquote ++ slice input start end_ ++ dquote
    else Parse.command command ++ (if Nat.ltb 0 (parameters command) then "()" else "") in
  "While parsing " ++ error_source ++ " at index " ++ of_nat (start + 1)
  ++ (match where_ with Some w => w | None => "" end) ++ ": " ++ error.

(** [StringParser::prepare_tokens]: the tokens pushed and the new position *)
Definition prepare_tokens (position : nat) : list Token * nat :=
  match regex_find_at parser input position with
  | None => ([TokText (slice input position length) position length], length)
  | Some (m_start, m_end) =>
      let '(pre, position) :=
        if Nat.ltb position m_start
        then ([TokText (slice input position m_start) position m_start], m_start)
        else ([], position) in
      match command_map_get parser (slice input m_start m_end) with
      | None =>
          (app pre [TokError ("Internal error: cannot find command "
                             ++ debug (slice input m_start m_end) ++ " at " ++ of_nat position)
                            m_start m_end], position)
      | Some command =>
          let position := m_end in
          if escaped_arguments command then
            match parse_escaped_call (parameters command) position with
            | (p, Ok params) => (app pre [EscapedCommand command params m_start p], p)
            | (p, Err error) =>
                (app pre [TokError (compose_parsing_error command m_start p error) m_start p], p)
            end
          else
            match parse_unescaped_call (parameters command) position with
            | (p, Ok params) => (app pre [UnescapedCommand command params m_start p], p)
            | (p, Err error) =>
                (app pre [TokError (compose_parsing_error command m_start p error) m_start p], p)
            end
      end
  end.

(** The tokens [StringParser::next] hands out until [Token::End], from
    [position] on; [fuel] bounds the calls of [prepare_tokens]
    ([length + 1] suffice: every call moves the position forward). *)
Fixpoint tokens_from (fuel position : nat) : list Token :=
  match fuel with
  | O => []
  | S fuel' =>
      if Nat.eqb position length then []
      else let '(toks, position') := prepare_tokens position in
           app toks (tokens_from fuel' position')
  end.

Definition tokens : list Token := tokens_from (S length) 0.

End StringParser.

(** *** Parts *)

(** [Context] *)
Record Context : Type := mkContext {
  current_plugin : option PluginIdentifier;
  role_entrypoint : option string;
}.

Definition IGNORE_MARKER : string := "ignore:".

Definition is_fqcn_char (c : ascii) : bool :=
  HtmlHelper.in_range "a" "z" c || HtmlHelper.in_range "0" "9" c || Ascii.eqb c "_".

(** [fqcn_re]: [^[a-z0-9_]+\.[a-z0-9_]+(?:\.[a-z0-9_]+)+$] *)
Definition is_fqcn (s : string) : bool :=
  let components := split_dot s in
  Nat.leb 3 (List.length components)
  && forallb (fun p => negb (String.eqb p "") && for_all is_fqcn_char p) components.

(** [plugin_type_re]: [^[a-z_]+$] *)
Definition is_plugin_type (s : string) : bool :=
  negb (String.eqb s "")
  && for_all (fun c => HtmlHelper.in_range "a" "z" c || Ascii.eqb c "_") s.

(** [fqcn_type_prefix_re.captures(text)] for
    [^([^.]+\.[^.]+\.[^#]+)#([^:]+):(.{0,})$] (written
    with [{0,}] for the star here): every group ends at the first
    occurrence of the byte that follows it, and the last group may not
    contain a newline; returns the three groups. *)
Definition fqcn_type_prefix_captures (text : string) : option (string * string * string) :=
  match split_once "." text with
  | None => None
  | Some (a, r1) =>
      if String.eqb a "" then None else
      match split_once "." r1 with
      | None => None
      | Some (b, r2) =>
          if String.eqb b "" then None else
          match split_once "#" r2 with
          | None => None
          | Some (c, r3) =>
              if String.eqb c "" then None else
              match split_once ":" r3 with
              | None => None
              | Some (t, rest) =>
                  if String.eqb t "" || contains_char newline rest then None
                  else Some (a ++ "." ++ b ++ "." ++ c, t, rest)
              end
          end
      end
  end.

(** [array_stub_re.replace_all(text, "")] for [\[([^\]]{0,})\]] (star written [{0,}]): a [[] starts a
    stub that the next []] closes; an unclosed [[] and what follows stay. *)
Fixpoint remove_array_stubs (inside : option string) (s : string) : string :=
  match s with
  | EmptyString =>
      match inside with None => EmptyString | Some buf => "[" ++ buf end
  | String c r =>
      match inside with
      | None => if Ascii.eqb c "[" then remove_array_stubs (Some EmptyString) r
                else String c (remove_array_stubs None r)
      | Some buf => if Ascii.eqb c "]" then remove_array_stubs None r
                    else remove_array_stubs (Some (buf ++ char c)) r
      end
  end.

Definition array_stub_replace_all (text : string) : string := remove_array_stubs None text.

Definition OptionLikeFields : Type :=
  (option PluginIdentifier * option string * list string * string * option string)%type.

(** the first step of [_parse_option_like]: [text] and [value] split at
    the first [=] *)
Definition split_value (input : string) : string * option string :=
  match split_once "=" input with
  | Some (r, ov) => (r, Some ov)
  | None => (input, None)
  end.

(** [_parse_option_like] *)
Definition parse_option_like (input : string) (context : Context) : result OptionLikeFields :=
  let '(text, value) := split_value input in
  let '(plugin_res, entrypoint, text) :=
    match fqcn_type_prefix_captures text with
    | Some (fqcn, plugin_type, rest) =>
        if negb (is_fqcn fqcn) then (Err ("Plugin name " ++ debug fqcn ++ " is not a FQCN"), None, text)
        else if negb (is_plugin_type plugin_type)
        then (Err ("Plugin type " ++ debug plugin_type ++ " is not valid"), None, text)
        else (Ok (Some (mkPluginIdentifier fqcn plugin_type)), None, rest)
    | None =>
        if starts_with IGNORE_MARKER text
        then (Ok None, None, suffix (String.length IGNORE_MARKER) text)
        else (Ok (current_plugin context), role_entrypoint context, text)
    end in
  match plugin_res with
  | Err e => Err e
  | Ok plugin =>
      let role_res :=
        match plugin with
        | Some pi =>
            if String.eqb (type_ pi) "role" then
              let '(entrypoint, text) :=
                match split_once ":" text with
                | Some (a, b) => (Some a, b)
                | None => (entrypoint, text)
                end in
              match entrypoint with
              | None => Err "Role reference is missing entrypoint"
              | Some _ => Ok (entrypoint, text)
              end
            else Ok (entrypoint, text)
        | None => Ok (entrypoint, text)
        end in
      match role_res with
      | Err e => Err e
      | Ok (entrypoint, text) =>
          if contains_char ":" text || contains_char "#" text
          then Err ("Invalid option/return value name " ++ debug text)
          else
            let link := split_dot (array_stub_replace_all text) in
            Ok (plugin, entrypoint, link, text, value)
      end
  end.

(** [ToPartError] *)
Record ToPartError : Type := mkToPartError {
  err_command : Command;
  err_start : nat;
  err_end : nat;
  err_message : string;
}.

Definition last_parameter (parameters : list string) : string := last parameters EmptyString.

(** [to_part]; [Token::End] panics in the Rust code and never reaches it *)
Definition to_part (token : Token) (context : Context) (parser : Parser)
    : option Part + ToPartError :=
  let wrap command start end_ (r : result Part) :=
    match r with
    | Ok part => inl (Some part)
    | Err msg => inr (mkToPartError command start end_ msg)
    end in
  match token with
  | End => inl None
  | TokText text _ _ => inl (Some (Text text))
  | UnescapedCommand command parameters start end_ =>
      let p0 := nth 0 parameters EmptyString in
      let p1 := nth 1 parameters EmptyString in
      wrap command start end_
        (let c := Parse.command command in
         if String.eqb c "B" then Ok (Bold p0)
         else if String.eqb c "I" then Ok (Italic p0)
         else if String.eqb c "M" then
           (if negb (is_fqcn p0) then Err ("Module name " ++ debug p0 ++ " is not a FQCN")
            else Ok (Module p0))
         else if String.eqb c "U" then Ok (URL p0)
         else if String.eqb c "L" then Ok (Link p0 p1)
         else if String.eqb c "R" then Ok (RSTRef p0 p1)
         else if String.eqb c "C" then Ok (Code p0)
         else if String.eqb c "HORIZONTALLINE" then Ok HorizontalLine
         else Err ("Handling unescaped " ++ debug c ++ " not yet implemented!"))
  | EscapedCommand command parameters start end_ =>
      let value := last_parameter parameters in
      wrap command start end_
        (let c := Parse.command command in
         if String.eqb c "P" then
           match split_once "#" value with
           | Some (fqcn, ptype) =>
               if negb (is_fqcn fqcn) then Err ("Plugin name " ++ debug fqcn ++ " is not a FQCN")
               else if negb (is_plugin_type ptype)
               then Err ("Plugin name " ++ debug ptype ++ " is not a FQCN")
               else Ok (Plugin (mkPluginIdentifier fqcn ptype))
           | None => Err ("Parameter " ++ debug value ++ " is not of the form FQCN#type")
           end
         else if String.eqb c "E" then Ok (EnvVariable value)
         else if String.eqb c "V" then Ok (OptionValue value)
         else if String.eqb c "O" then
           match parse_option_like value context with
           | Ok (plugin, entrypoint, link, name, v) => Ok (OptionName plugin entrypoint link name v)
           | Err e => Err e
           end
         else if String.eqb c "RV" then
           match parse_option_like value context with
           | Ok (plugin, entrypoint, link, name, v) => Ok (ReturnValue plugin entrypoint link name v)
           | Err e => Err e
           end
         else Err ("Handling escaped " ++ debug c ++ " not yet implemented!"))
  | TokError message _ _ => inl (Some (Error message))
  end.

(** [ParseOptions] *)
Record ParseOptions : Type := mkParseOptions {
  only_classic_markup : bool;
  opt_strict : bool;
  opt_helpful_errors : bool;
  opt_where : option string;
}.

Definition ParseOptions_default : ParseOptions := mkParseOptions false false true None.

Definition ParseOptions_strict (o : ParseOptions) : ParseOptions :=
  mkParseOptions (only_classic_markup o) true (opt_helpful_errors o) (opt_where o).

Definition parser_of (opts : ParseOptions) : Parser :=
  if only_classic_markup opts then CLASSIC_MARKUP_PARSER else FULL_PARSER.

(** the part for one token, as the loop body of [do_parse_with_source] builds it *)
Definition token_part (input : string) (opts : ParseOptions) (context : Context)
    (token : Token) : option Part :=
  match to_part token context (parser_of opts) with
  | inl p => p
  | inr err =>
      Some (Error (compose_parsing_error input (opt_helpful_errors opts) (opt_where opts)
                     (err_command err) (err_start err) (err_end err) (err_message err)))
  end.

(** [do_parse_with_source] *)
Definition do_parse_with_source (input : string) (opts : ParseOptions) (context : Context)
    (toks : list Token) : list PartWithSource :=
  flat_map (fun token =>
              let source := get_source input token in
              match token_part input opts context token with
              | Some p => [mkPartWithSource p (match source with Some s => s | None => EmptyString end)]
              | None => []
              end) toks.

(** [parse] *)
Definition parse (input : string) (context : Context) (opts : ParseOptions) : list PartWithSource :=
  do_parse_with_source input opts context
    (tokens input (parser_of opts) (opt_strict opts) (opt_helpful_errors opts) (opt_where opts)).


(** [do_parse_without_source] *)
Definition do_parse_without_source (input : string) (opts : ParseOptions) (context : Context)
    (toks : list Token) : list Part :=
  flat_map (fun token =>
              match token_part input opts context token with
              | Some p => [p]
              | None => []
              end) toks.

(** [parse_without_sources] as the source writes it, through
    [do_parse_without_source] *)
Definition parse_without_sources_impl (input : string) (context : Context) (opts : ParseOptions)
    : list Part :=
  do_parse_without_source input opts context
    (tokens input (parser_of opts) (opt_strict opts) (opt_helpful_errors opts) (opt_where opts)).

(** [ParseOptions::add_paragraph_to_where] *)
Definition add_paragraph_to_where (opts : ParseOptions) (index : nat) : ParseOptions :=
  let prefix := " of paragraph " ++ of_nat index in
  mkParseOptions (only_classic_markup opts) (opt_strict opts) (opt_helpful_errors opts)
    (Some (match opt_where opts with Some w => prefix ++ w | None => prefix end)).

(** [Iterator::enumerate] *)
Fixpoint enumerate_from {A : Type} (index : nat) (l : list A) : list (nat * A) :=
  match l with
  | [] => []
  | x :: r => (index, x) :: enumerate_from (S index) r
  end.

(** [parse_paragraphs] *)
Definition parse_paragraphs (input : list string) (context : Context) (opts : ParseOptions)
    : list (list PartWithSource) :=
  map (fun '(index, p) => parse p context (add_paragraph_to_where opts (index + 1)))
    (enumerate_from 0 input).

(** [parse_paragraphs_without_sources] *)
Definition parse_paragraphs_without_sources (input : list string) (context : Context)
    (opts : ParseOptions) : list (list Part) :=
  map (fun '(index, p) => parse_without_sources_impl p context (add_paragraph_to_where opts (index + 1)))
    (enumerate_from 0 input).

End Parse.

(** ** Views of tokens and positions used by the statements below *)

Module TokenView.
Import Parse.

(** the end [e] of a match of [\\.] that [_process_match] rejects under
    [strict]: the match starts at a backslash [a] and ends at [e], and the
    escaped character [input[a+1..e]] is neither [)] nor [\] *)
Definition escape_error_end (input : string) (e : nat) : Prop :=
  exists a, escape_at input a = true /\ e = escape_end input a
            /\ slice input (S a) e <> ")" /\ slice input (S a) e <> "\".

(** the source of a token, as [do_parse_with_source] stores it *)
Definition token_source (input : string) (t : Token) : string :=
  match get_source input t with Some s => s | None => EmptyString end.

Definition sources_concat (input : string) (toks : list Token) : string :=
  fold_right String.append EmptyString (map (token_source input) toks).

Definition token_end (t : Token) : nat :=
  match t with
  | End => 0
  | TokText _ _ e | UnescapedCommand _ _ _ e | EscapedCommand _ _ _ e | TokError _ _ e => e
  end.

Definition is_text (t : Token) : bool :=
  match t with TokText _ _ _ => true | _ => false end.

(** what the parsers built by [Parser::new] from the command lists have:
    no command matches the empty string, and the only command without
    parameters is [HORIZONTALLINE], whose arguments are unescaped *)
Definition parser_wf (parser : Parser) : Prop :=
  Forall (fun c => command_match c <> EmptyString) parser
  /\ forall c, In c parser -> parameters c = 0 ->
     Parse.command c = "HORIZONTALLINE" /\ escaped_arguments c = false.

(** a token that is an error carries a message composed by
    [_compose_parsing_error] *)
Definition tok_error_composed (input : string) (he : bool) (w : option string) (t : Token) : Prop :=
  forall m st en, t = TokError m st en ->
  exists c e, m = compose_parsing_error input he w c st en e.

End TokenView.

(** ** Byte-wise views of the escapers used by the statements below *)

Module EscapeView.
Import HtmlHelper.

(** the concatenation of [f c] over the bytes [c] of [s] *)
Fixpoint bytes_map (f : ascii -> string) (s : string) : string :=
  match s with
  | EmptyString => EmptyString
  | String c r => f c ++ bytes_map f r
  end.

(** what the shared escape loop emits for one byte *)
Definition escape_byte (safe : ascii -> bool) (replace : ascii -> string) (c : ascii) : string :=
  if safe c then char c else replace c.

(** the value of an upper-case hexadecimal digit *)
Definition hex_value (c : ascii) : nat :=
  if in_range "0" "9" c then nat_of_ascii c - 48 else nat_of_ascii c - 55.

(** decoders of the first escaped byte of a string: the byte and the rest *)
Definition percent_decode_head (r : string) : option (ascii * string) :=
  match r with
  | String h (String l r') => Some (ascii_of_nat (16 * hex_value h + hex_value l), r')
  | _ => None
  end.

Definition url_decode_head (s : string) : option (ascii * string) :=
  match s with
  | EmptyString => None
  | String a r => if Ascii.eqb a "%" then percent_decode_head r else Some (a, r)
  end.

Definition html_decode_head (s : string) : option (ascii * string) :=
  match s with
  | EmptyString => None
  | String a r =>
      if Ascii.eqb a "&" then
        if starts_with "lt;" r then Some ("<"%char, suffix 3 r)
        else if starts_with "gt;" r then Some (">"%char, suffix 3 r)
        else if starts_with "amp;" r then Some ("&"%char, suffix 4 r)
        else None
      else Some (a, r)
  end.

Definition url_html_decode_head (s : string) : option (ascii * string) :=
  match s with
  | EmptyString => None
  | String a r =>
      if Ascii.eqb a "&" then
        if starts_with "amp;" r then Some ("&"%char, suffix 4 r) else None
      else if Ascii.eqb a "%" then percent_decode_head r
      else Some (a, r)
  end.

Definition backslash_decode_head (s : string) : option (ascii * string) :=
  match s with
  | EmptyString => None
  | String a r =>
      if Ascii.eqb a "\" then
        match r with String c r' => Some (c, r') | EmptyString => None end
      else Some (a, r)
  end.

End EscapeView.

(** ** Joined paragraphs *)

Module FormatView.

(** [sep] before each string of [l] *)
Fixpoint sep_prefixed (sep : string) (l : list string) : string :=
  match l with
  | [] => EmptyString
  | x :: r => sep ++ x ++ sep_prefixed sep r
  end.

End FormatView.

(** * Properties *)

(** ** General lemmas on strings *)

Lemma sapp_assoc : forall a b c : string, (a ++ b) ++ c = a ++ (b ++ c).
Proof. induction a; intros; simpl; [reflexivity | now rewrite IHa]. Qed.

Lemma sapp_nil_r : forall a : string, a ++ EmptyString = a.
Proof. induction a; simpl; [reflexivity | now rewrite IHa]. Qed.

Lemma sapp_length : forall a b : string, String.length (a ++ b) = String.length a + String.length b.
Proof. induction a; intros; simpl; [reflexivity | now rewrite IHa]. Qed.

Lemma count_while_for_all : forall p s, for_all p s = true -> count_while p s = String.length s.
Proof.
  intros p s; induction s as [|c r IH]; simpl; [reflexivity|].
  intro H; apply andb_prop in H as [Hc Hr]; rewrite Hc, IH; auto.
Qed.

Lemma starts_with_app : forall p s t, starts_with p (p ++ s) = true /\
  (starts_with p s = true -> starts_with p (s ++ t) = true).
Proof.
  induction p as [|c p IH]; intros s t; simpl; [auto|].
  split.
  - rewrite Ascii.eqb_refl; apply (proj1 (IH s t)).
  - destruct s as [|d s]; [discriminate|]; simpl.
    intro H; apply andb_prop in H as [H1 H2]; rewrite H1; apply (proj2 (IH s t)); exact H2.
Qed.

Lemma contains_of_starts_with : forall p s, starts_with p s = true -> contains p s = true.
Proof. intros p s H; destruct s; simpl; rewrite H; reflexivity. Qed.

Lemma contains_app : forall p x y, contains p (x ++ p ++ y) = true.
Proof.
  intros p x y; induction x as [|c x IH].
  - apply contains_of_starts_with, (proj1 (starts_with_app p y y)).
  - simpl; rewrite IH, orb_true_r; reflexivity.
Qed.

(** the generic escape loop borrows its input when every byte is safe *)
Lemma run_escape_all_safe : forall safe replace s,
  for_all safe s = true -> HtmlHelper.run_escape safe replace s = Borrowed s.
Proof.
  intros safe replace s H; unfold HtmlHelper.run_escape; simpl.
  rewrite count_while_for_all by exact H; rewrite Nat.eqb_refl; reflexivity.
Qed.

(** ** Renderers *)

Module RenderProps.
Import HtmlHelper RstHelper MdHelper.

(** C10: in the antsibull RST backend a [Link] with empty text appends
    nothing; a [Link] with non-empty text and empty url appends only the
    RST-escaped text; a [URL] part with an empty url appends nothing. *)
Theorem rst_link_empty_text_or_url : forall (a url : string) (c : ascii) (text : string)
    (u : option string),
  AntsibullRST.append a (Link EmptyString url) u = a /\
  AntsibullRST.append a (Link (String c text) EmptyString) u
    = push_cow_str a (rst_escape (String c text) false false) /\
  AntsibullRST.append a (URL EmptyString) u = a.
Proof. intros; repeat split; reflexivity. Qed.

(** C4 (as the code has it): in the antsibull HTML backend a [Module] or
    [Plugin] part with a URL renders as [<a href='URL' class='module'>FQCN</a>]
    ([href] before [class]), with the URL percent-encoded and HTML-escaped
    and the FQCN HTML-escaped; without a URL it renders as
    [<span class='module'>FQCN</span>]. *)
Theorem antsibull_html_fqcn_rendering : forall (a f u : string) (pi : PluginIdentifier),
  AntsibullHTML.append a (Module f) (Some u)
    = a ++ "<a href='" ++ cow_str (url_escape_with_html_escape u) ++ "' class='module'>"
        ++ cow_str (html_escape f) ++ "</a>" /\
  AntsibullHTML.append a (Module f) None
    = a ++ "<span class='module'>" ++ cow_str (html_escape f) ++ "</span>" /\
  AntsibullHTML.append a (Plugin pi) (Some u)
    = a ++ "<a href='" ++ cow_str (url_escape_with_html_escape u) ++ "' class='module'>"
        ++ cow_str (html_escape (fqcn pi)) ++ "</a>" /\
  AntsibullHTML.append a (Plugin pi) None
    = a ++ "<span class='module'>" ++ cow_str (html_escape (fqcn pi)) ++ "</span>".
Proof.
  intros; unfold AntsibullHTML.append, AntsibullHTML.append_fqcn, push_str, push_cow_str,
    push_owned_string; cbv beta zeta.
  repeat rewrite sapp_assoc; repeat split; reflexivity.
Qed.

(** C4, as stated: with a URL the module link would start
    [<a class='module' href='URL'>]; the code writes [href] first. *)
Lemma antsibull_html_fqcn_attribute_order :
  AntsibullHTML.append EmptyString (Module "a.b.c") (Some "u")
    <> "<a class='module' href='u'>a.b.c</a>".
Proof. vm_compute; discriminate. Qed.

(** C3 (as the code has it): with a URL, the antsibull HTML rendering of an
    option-like part contains [<a class="reference internal" href="URL">],
    and this anchor encloses [<span class="std std-ref"><span class="pre">],
    which encloses the escaped name and optional [=value]; the whole is inside
    [<code ...>] (and [<strong>] for an option without value). *)
Theorem antsibull_html_option_link_nesting : forall (a name : string) (value : option string)
    (what : OptionLike) (u : string),
  let q := dquote in
  let strong := match what, value with OptionLike_Option, None => true | _, _ => false end in
  AntsibullHTML.append_option_like a name value what (Some u)
  = a ++ "<code class=" ++ q
      ++ (if strong then "ansible-option"
          else match what with OptionLike_Option => "ansible-option-value"
                             | OptionLike_RetVal => "ansible-return-value" end)
      ++ " literal notranslate" ++ q ++ ">"
      ++ (if strong then "<strong>" else EmptyString)
      ++ "<a class=" ++ q ++ "reference internal" ++ q ++ " href=" ++ q
      ++ cow_str (url_escape_with_html_escape u) ++ q ++ ">"
      ++ "<span class=" ++ q ++ "std std-ref" ++ q ++ ">"
      ++ "<span class=" ++ q ++ "pre" ++ q ++ ">"
      ++ cow_str (html_escape name)
      ++ (match value with Some v => "=" ++ cow_str (html_escape v) | None => EmptyString end)
      ++ "</span></span>" ++ "</a>"
      ++ (if strong then "</strong>" else EmptyString)
      ++ "</code>".
Proof.
  intros a name value what u; cbv zeta.
  destruct what, value; unfold AntsibullHTML.append_option_like, push_str, push_cow_str,
    push_owned_string; cbv beta zeta iota delta [andb]; repeat rewrite sapp_assoc;
    reflexivity.
Qed.

(** C3, as stated: the two spans do not enclose the anchor. *)
Lemma antsibull_html_option_spans_inside_anchor :
  contains ("<span class=" ++ dquote ++ "std std-ref" ++ dquote ++ "><span class="
            ++ dquote ++ "pre" ++ dquote ++ "><a")
    (AntsibullHTML.append_option_like EmptyString "a" None OptionLike_Option (Some "u"))
  = false.
Proof. vm_compute; reflexivity. Qed.

(** C8, as stated: the empty string needs no escaping, yet the RST escaper
    with [must_not_be_empty] returns [\ ]; so does [" "] with
    [escape_ending_whitespace]. *)
Lemma rst_escape_rewrites_unescaped_input :
  for_all is_rst_safe EmptyString = true /\
  cow_str (rst_escape EmptyString false true) = "\ " /\
  for_all is_rst_safe " " = true /\
  cow_str (rst_escape " " true false) = "\  \ ".
Proof. vm_compute; repeat split. Qed.

End RenderProps.

(** ** Slices *)

Module SliceFacts.

Lemma substring_suffix : forall n m s, substring n m s = substring 0 m (suffix n s).
Proof.
  induction n as [|n IH]; intros m s; [reflexivity|].
  destruct s as [|c s]; simpl; [destruct m; reflexivity | apply IH].
Qed.

Lemma substring_split : forall s a b,
  substring 0 a s ++ substring a b s = substring 0 (a + b) s.
Proof.
  induction s as [|c s IH]; intros a b.
  - destruct a, b; reflexivity.
  - destruct a as [|a]; simpl.
    + destruct b; reflexivity.
    + f_equal. apply IH.
Qed.

Lemma suffix_suffix : forall i j s, suffix (i + j) s = suffix j (suffix i s).
Proof.
  induction i as [|i IH]; intros j s; [reflexivity|].
  destruct s as [|c s]; simpl; [destruct j; reflexivity | apply IH].
Qed.

Lemma slice_app : forall s i j k, i <= j -> j <= k ->
  slice s i j ++ slice s j k = slice s i k.
Proof.
  intros s i j k Hij Hjk; unfold slice.
  assert (Hj : suffix j s = suffix (j - i) (suffix i s))
    by (rewrite <- suffix_suffix; f_equal; lia).
  rewrite (substring_suffix i (j - i) s), (substring_suffix j (k - j) s),
    (substring_suffix i (k - i) s), Hj.
  rewrite <- (substring_suffix (j - i) (k - j)), substring_split.
  f_equal; lia.
Qed.

Lemma substring_full : forall s, substring 0 (String.length s) s = s.
Proof. induction s; simpl; [reflexivity | now rewrite IHs]. Qed.

Lemma slice_full : forall s, slice s 0 (String.length s) = s.
Proof. intro s; unfold slice; rewrite Nat.sub_0_r; apply substring_full. Qed.

Lemma slice_empty : forall s i, slice s i i = EmptyString.
Proof.
  intros s i; unfold slice; rewrite Nat.sub_diag, substring_suffix; destruct (suffix i s); reflexivity.
Qed.

Lemma get_lt : forall i s c, get i s = Some c -> i < String.length s.
Proof.
  induction i as [|i IH]; intros s c H; destruct s as [|d s]; simpl in *; try discriminate.
  - lia.
  - apply IH in H; lia.
Qed.

Lemma get_suffix : forall i s, get 0 (suffix i s) = get i s.
Proof.
  induction i as [|i IH]; intros s; [reflexivity|].
  destruct s; simpl; [reflexivity | apply IH].
Qed.

Lemma length_suffix : forall i s, String.length (suffix i s) = String.length s - i.
Proof.
  induction i as [|i IH]; intros s; [simpl; lia|].
  destruct s; simpl; [reflexivity | apply IH].
Qed.

Lemma count_while_le : forall p s, count_while p s <= String.length s.
Proof. intros p s; induction s; simpl; [lia | destruct (p a); simpl; lia]. Qed.

Lemma get_count_while : forall p s k,
  get k s <> None -> k = count_while p s -> exists c, get k s = Some c /\ p c = false.
Proof.
  intros p s; induction s as [|d s IH]; intros k Hk Heq; simpl in *.
  - destruct k; contradiction.
  - destruct (p d) eqn:Hp; subst k.
    + simpl; apply IH; [exact Hk | reflexivity].
    + exists d; auto.
Qed.

(** the substring at offset [i] starting with [p] is [p] *)
Lemma slice_starts_with : forall p s i, p <> EmptyString -> starts_with p (suffix i s) = true ->
  slice s i (i + String.length p) = p /\ i + String.length p <= String.length s.
Proof.
  intros p s i Hp H; unfold slice; rewrite substring_suffix.
  assert (0 < String.length p) by (destruct p; [congruence | simpl; lia]).
  replace (i + String.length p - i) with (String.length p) by lia.
  assert (Hl := length_suffix i s).
  revert H Hl; generalize (suffix i s) as t; intros t H Hl.
  enough (Hb : substring 0 (String.length p) t = p /\ String.length p <= String.length t)
    by (destruct Hb; split; [assumption | lia]).
  clear Hl Hp H0; revert t H; induction p as [|c p IH]; intros t H.
  { destruct t; simpl; split; (reflexivity || lia). }
  destruct t as [|d t]; [discriminate|]; simpl in H |- *.
  apply andb_prop in H as [H1 H2]; apply Ascii.eqb_eq in H1; subst d.
  destruct (IH t H2) as [Ha Hb]; rewrite Ha; split; [reflexivity | lia].
Qed.

Lemma concat_in : forall (l : list string) x, In x l ->
  exists pre post, fold_right String.append EmptyString l = pre ++ x ++ post.
Proof.
  induction l as [|y l IH]; intros x Hin; [destruct Hin|].
  destruct Hin as [<- | Hin].
  - exists EmptyString, (fold_right String.append EmptyString l); reflexivity.
  - destruct (IH x Hin) as [pre [post Heq]].
    exists (y ++ pre), post; simpl; rewrite Heq, sapp_assoc; reflexivity.
Qed.

Lemma slice_one : forall s i c, get i s = Some c -> slice s i (S i) = char c.
Proof.
  intros s i c H; unfold slice; replace (S i - i) with 1 by lia.
  rewrite substring_suffix; rewrite <- get_suffix in H.
  destruct (suffix i s) as [|d r]; simpl in H; [discriminate|].
  injection H as ->; destruct r; reflexivity.
Qed.

Lemma char_eqb : forall c d,
  String.eqb (String c EmptyString) (String d EmptyString) = Ascii.eqb c d.
Proof.
  intros c d; destruct (Ascii.eqb_spec c d) as [->|Hne]; [apply String.eqb_refl|].
  destruct (String.eqb_spec (String c EmptyString) (String d EmptyString)) as [E|]; [|reflexivity].
  injection E as E; contradiction.
Qed.

End SliceFacts.

(** ** The matchers of the parser *)

(** case analysis on every [match] and [if] of a hypothesis, innermost first *)
Ltac destruct_matches_in H :=
  repeat match type of H with
  | context [match ?x with _ => _ end] =>
      lazymatch x with context [match _ with _ => _ end] => fail | _ => idtac end;
      let E := fresh "E" in destruct x eqn:E
  end.

Module ParseFacts.
Import Parse SliceFacts TokenView.

Lemma find_command_from_spec : forall parser s n i a b,
  find_command_from parser s n i = Some (a, b) ->
  i <= a /\ exists c, In c parser /\ command_matches_at s a c = true
                      /\ b = a + String.length (command_match c).
Proof.
  intros parser s n; induction n as [|n IH]; intros i a b H; simpl in H; [discriminate|].
  destruct (find (command_matches_at s i) parser) as [c|] eqn:Hf.
  - injection H as <- <-; apply find_some in Hf as [Hin Hm].
    split; [lia | exists c; auto].
  - apply IH in H as [Hle Hc]; split; [lia | exact Hc].
Qed.

(** the match of the command regex is a command of the parser, found again
    by [command_map.get] *)
Lemma regex_find_at_spec : forall parser s pos a b,
  Forall (fun c => command_match c <> EmptyString) parser ->
  regex_find_at parser s pos = Some (a, b) ->
  pos <= a /\ a < b /\ b <= String.length s
  /\ exists c, command_map_get parser (slice s a b) = Some c.
Proof.
  intros parser s pos a b Hne H.
  apply find_command_from_spec in H as [Hle [c [Hin [Hm ->]]]].
  rewrite Forall_forall in Hne; specialize (Hne c Hin).
  unfold command_matches_at in Hm.
  apply andb_prop in Hm as [Hm _]; apply andb_prop in Hm as [_ Hm].
  destruct (slice_starts_with _ _ _ Hne Hm) as [Hsl Hlen].
  assert (0 < String.length (command_match c)) by (destruct (command_match c); [congruence | simpl; lia]).
  repeat split; try lia.
  unfold command_map_get; rewrite Hsl.
  destruct (find (fun c0 => String.eqb (command_match c0) (command_match c)) parser) eqn:Hf.
  - eexists; reflexivity.
  - apply (find_none _ _ Hf) in Hin; rewrite String.eqb_refl in Hin; discriminate.
Qed.

Lemma escape_at_spec : forall s a, escape_at s a = true ->
  a + 2 <= escape_end s a <= String.length s /\ get a s = Some "\"%char
  /\ exists c, get (S a) s = Some c /\ c <> newline.
Proof.
  intros s a H; unfold escape_at, byte_at in H.
  destruct (get a s) as [b|] eqn:Hb; [|discriminate].
  destruct (get (S a) s) as [c|] eqn:Hc; [|discriminate].
  apply andb_prop in H as [H1 H2]; apply Ascii.eqb_eq in H1; subst b.
  pose proof (get_lt _ _ _ Hc) as Hlt.
  pose proof (count_while_le is_utf8_continuation (suffix (S (S a)) s)) as Hcw.
  rewrite length_suffix in Hcw.
  split; [unfold escape_end, char_len_at; lia|]; split; [reflexivity|].
  exists c; split; [reflexivity|]; intro E; subst c; rewrite Ascii.eqb_refl in H2; discriminate.
Qed.




Lemma comma_at_spec : forall s a b, comma_at s a = Some b ->
  a < b <= String.length s /\ (get a s = Some " "%char \/ get a s = Some ","%char).
Proof.
  intros s a b H; unfold comma_at, byte_at in H.
  remember (count_while is_space (suffix a s)) as k eqn:Hk.
  destruct (get (a + k) s) as [c|] eqn:Hc; [|discriminate].
  destruct (Ascii.eqb c ",") eqn:Hcomma; [|discriminate].
  apply Ascii.eqb_eq in Hcomma; subst c; injection H as <-.
  pose proof (get_lt _ _ _ Hc) as Hlt.
  pose proof (count_while_le is_space (suffix (S (a + k)) s)) as Hcw.
  rewrite length_suffix in Hcw.
  change (match s with "" => "" | String _ r => suffix (a + k) r end)
    with (suffix (S (a + k)) s).
  split; [lia|].
  destruct k as [|k].
  - right; rewrite Nat.add_0_r in Hc; exact Hc.
  - left. rewrite <- get_suffix.
    destruct (suffix a s) as [|d r] eqn:Hs; simpl in Hk; [discriminate|].
    unfold is_space in Hk; destruct (Ascii.eqb d " ") eqn:Hd; [|discriminate].
    apply Ascii.eqb_eq in Hd; subst d; reflexivity.
Qed.

Lemma find_escape_or_closing_spec : forall s n i a b,
  find_escape_or_closing_from s n i = Some (a, b) ->
  i <= a /\ ((escape_at s a = true /\ b = escape_end s a) \/ (get a s = Some ")"%char /\ b = S a)).
Proof.
  intros s n; induction n as [|n IH]; intros i a b H; simpl in H; [discriminate|].
  destruct (escape_at s i) eqn:He.
  - injection H as <- <-; split; [lia | left; auto].
  - unfold byte_at in H; destruct (get i s) as [c|] eqn:Hc.
    + destruct (Ascii.eqb c ")") eqn:Hp.
      * injection H as <- <-; apply Ascii.eqb_eq in Hp; subst c; split; [lia | right; auto].
      * apply IH in H as [Hle Hr]; split; [lia | exact Hr].
    + apply IH in H as [Hle Hr]; split; [lia | exact Hr].
Qed.

Lemma find_escape_or_comma_spec : forall s n i a b,
  find_escape_or_comma_from s n i = Some (a, b) ->
  i <= a /\ ((escape_at s a = true /\ b = escape_end s a) \/ comma_at s a = Some b).
Proof.
  intros s n; induction n as [|n IH]; intros i a b H; simpl in H; [discriminate|].
  destruct (escape_at s i) eqn:He.
  - injection H as <- <-; split; [lia | left; auto].
  - destruct (comma_at s i) as [e|] eqn:Hc.
    + injection H as <- <-; split; [lia | right; auto].
    + apply IH in H as [Hle Hr]; split; [lia | exact Hr].
Qed.

Lemma find_char_from_spec : forall c s n i k,
  find_char_from c s n i = Some k -> i <= k /\ get k s = Some c.
Proof.
  intros c s n; induction n as [|n IH]; intros i k H; simpl in H; [discriminate|].
  unfold byte_at in H; destruct (get i s) as [d|] eqn:Hd; [|discriminate].
  destruct (Ascii.eqb c d) eqn:Hcd.
  - injection H as <-; apply Ascii.eqb_eq in Hcd; subst d; split; [lia | exact Hd].
  - apply IH in H as [Hle Hk]; split; [lia | exact Hk].
Qed.

Lemma process_match_spec : forall input strict a b pos arg p r,
  process_match input strict (a, b) pos arg = (p, r) ->
  p = b /\
  match r with
  | Err _ => strict = true /\ get a input = Some "\"%char
             /\ String.eqb (slice input (a + 1) b) ")" = false
             /\ String.eqb (slice input (a + 1) b) "\" = false
  | Ok (true, _) => get a input <> Some "\"%char
  | Ok (false, _) => True
  end.
Proof.
  intros input strict a b pos arg p r H; unfold process_match, byte_at in H.
  destruct (get a input) as [c|] eqn:Hc.
  - destruct (Ascii.eqb_spec c "\") as [->|Hne]; simpl in H.
    + destruct strict; simpl in H.
      * destruct (String.eqb (slice input (a + 1) b) ")") eqn:E1; simpl in H;
          [injection H as <- <-; auto|].
        destruct (String.eqb (slice input (a + 1) b) "\") eqn:E2; simpl in H;
          injection H as <- <-; auto.
      * injection H as <- <-; auto.
    + injection H as <- <-; split; [reflexivity | congruence].
  - injection H as <- <-; split; [reflexivity | discriminate].
Qed.

Section Collect.

Variable input : string.
Variable strict : bool.
Variable finder : nat -> option (nat * nat).

(** the separator regexes find a match at or after the position, inside
    the input, of at least one byte; a match that starts with a backslash
    is an escape of two bytes *)
Hypothesis finder_bounds : forall p a b, finder p = Some (a, b) ->
  p <= a /\ a < b /\ b <= String.length input.
Hypothesis finder_escape : forall p a b, finder p = Some (a, b) ->
  get a input = Some "\"%char -> escape_at input a = true /\ b = escape_end input a.

Lemma collect_argument_spec : forall nf fuel pos arg p r,
  pos <= String.length input ->
  collect_argument input strict finder nf fuel pos arg = (p, r) ->
  pos <= p <= String.length input /\
  match r with
  | Err _ => p = String.length input \/ (strict = true /\ escape_error_end input p)
  | Ok _ => exists q a, finder q = Some (a, p) /\ get a input <> Some "\"%char
  end.
Proof.
  intros nf fuel; induction fuel as [|fuel IH]; intros pos arg p r Hpos H; simpl in H.
  - injection H as <- <-; split; [lia | left; reflexivity].
  - destruct (finder pos) as [[a b]|] eqn:Hfp; [|injection H as <- <-; split; [lia | left; reflexivity]].
    destruct (finder_bounds _ _ _ Hfp) as (H1 & H2 & H3).
    destruct (process_match input strict (a, b) pos arg) as [q rr] eqn:Hpm.
    apply process_match_spec in Hpm as [-> Hrr].
    destruct rr as [[[|] x]|e].
    + injection H as <- <-; split; [lia | exists pos, a; split; assumption].
    + apply IH in H as [Hb Hr]; [split; [lia | exact Hr] | lia].
    + injection H as <- <-; split; [lia|]; right.
      destruct Hrr as (Hs & Ha & Hne1 & Hne2); split; [exact Hs|].
      destruct (finder_escape _ _ _ Hfp Ha) as [He ->].
      rewrite Nat.add_1_r in Hne1, Hne2.
      exists a; repeat split; [exact He | |]; intro E; rewrite E in *; discriminate.
Qed.

End Collect.

Lemma closing_finder_bounds : forall input p a b,
  find_escape_or_closing input p = Some (a, b) ->
  p <= a /\ a < b /\ b <= String.length input.
Proof.
  intros input p a b H; apply find_escape_or_closing_spec in H as [Hle [[He ->]|[Hc ->]]].
  - apply escape_at_spec in He; lia.
  - apply get_lt in Hc; lia.
Qed.

Lemma closing_finder_escape : forall input p a b,
  find_escape_or_closing input p = Some (a, b) ->
  get a input = Some "\"%char -> escape_at input a = true /\ b = escape_end input a.
Proof.
  intros input p a b H Ha; apply find_escape_or_closing_spec in H as [_ [[He ->]|[Hc _]]].
  - auto.
  - rewrite Hc in Ha; discriminate.
Qed.

Lemma comma_finder_bounds : forall input p a b,
  find_escape_or_comma input p = Some (a, b) ->
  p <= a /\ a < b /\ b <= String.length input.
Proof.
  intros input p a b H; apply find_escape_or_comma_spec in H as [Hle [[He ->]|Hc]].
  - apply escape_at_spec in He; lia.
  - apply comma_at_spec in Hc; lia.
Qed.

Lemma comma_finder_escape : forall input p a b,
  find_escape_or_comma input p = Some (a, b) ->
  get a input = Some "\"%char -> escape_at input a = true /\ b = escape_end input a.
Proof.
  intros input p a b H Ha; apply find_escape_or_comma_spec in H as [_ [[He ->]|Hc]].
  - auto.
  - apply comma_at_spec in Hc as [_ [Hc|Hc]]; rewrite Hc in Ha; discriminate.
Qed.

Lemma find_at_spec : forall s c pos k,
  find_at s c pos = Some k -> pos <= k /\ k < String.length s /\ get k s = Some c.
Proof.
  intros s c pos k H; apply find_char_from_spec in H as [Hle Hk].
  pose proof (get_lt _ _ _ Hk); auto.
Qed.

Lemma escaped_commas_spec : forall input strict count cl pos params p r,
  pos <= String.length input ->
  escaped_commas input strict count cl pos params = (p, r) ->
  pos <= p <= String.length input /\
  match r with
  | Err _ => p = String.length input \/ (strict = true /\ escape_error_end input p)
  | Ok _ => True
  end.
Proof.
  intros input strict count cl; induction cl as [|cl IH]; intros pos params p r Hpos H;
    cbn [escaped_commas] in H.
  - injection H as <- <-; split; [lia | exact I].
  - destruct (collect_argument input strict (find_escape_or_comma input)
                (comma_error (count - S cl)) (S (String.length input)) pos EmptyString)
      as [q [arg|e]] eqn:Hc;
    apply collect_argument_spec in Hc as [Hq Hr];
      try exact Hpos; try exact (comma_finder_bounds input); try exact (comma_finder_escape input).
    + apply IH in H as [Hp Hr']; [split; [lia | exact Hr'] | lia].
    + simpl in H; injection H as <- <-; split; [lia | exact Hr].
Qed.

Lemma parse_escaped_call_spec : forall input strict count pos p r,
  0 < count -> pos <= String.length input ->
  parse_escaped_call input strict count pos = (p, r) ->
  pos <= p <= String.length input /\
  match r with
  | Err _ => p = String.length input \/ (strict = true /\ escape_error_end input p)
  | Ok _ => get (p - 1) input = Some ")"%char
  end.
Proof.
  intros input strict count pos p r Hcount Hpos H.
  destruct count as [|count]; [lia|]; unfold parse_escaped_call in H.
  destruct (escaped_commas input strict (S count) (S count - 1) pos []) as [q [params|e]] eqn:He;
    apply escaped_commas_spec in He as [Hq Hr]; auto.
  - destruct (collect_argument input strict (find_escape_or_closing input) closing_error
                (S (String.length input)) q EmptyString) as [q' [arg|e]] eqn:Hc;
    apply collect_argument_spec in Hc as [Hq' Hr'];
      try exact (closing_finder_bounds input); try exact (closing_finder_escape input); try lia.
    + injection H as <- <-; split; [lia|].
      destruct Hr' as (q0 & a & Hf & Ha).
      apply find_escape_or_closing_spec in Hf as [_ [[He ->]|[Hc ->]]].
      * apply escape_at_spec in He as (_ & He & _); contradiction.
      * replace (S a - 1) with a by lia; exact Hc.
    + injection H as <- <-; split; [lia | exact Hr'].
  - injection H as <- <-; split; [lia | exact Hr].
Qed.

Lemma unescaped_commas_spec : forall input count cl pos first params p r,
  pos <= String.length input ->
  unescaped_commas input count cl pos first params = (p, r) ->
  pos <= p <= String.length input /\
  match r with Err _ => p = String.length input | Ok _ => True end.
Proof.
  intros input count cl; induction cl as [|cl IH]; intros pos first params p r Hpos H;
    cbn [unescaped_commas] in H.
  - injection H as <- <-; split; [lia | exact I].
  - destruct (find_at input "," pos) as [index|] eqn:Hf.
    + apply find_at_spec in Hf as (H1 & H2 & _).
      destruct (strip input pos index (negb first) true) as [st en].
      apply IH in H as [Hp Hr]; [split; [lia | exact Hr] | lia].
    + injection H as <- <-; split; [lia | reflexivity].
Qed.

Lemma parse_unescaped_call_spec : forall input count pos p r,
  0 < count -> pos <= String.length input ->
  parse_unescaped_call input count pos = (p, r) ->
  pos <= p <= String.length input /\
  match r with
  | Err _ => p = String.length input
  | Ok _ => get (p - 1) input = Some ")"%char
  end.
Proof.
  intros input count pos p r Hcount Hpos H.
  destruct count as [|count]; [lia|]; unfold parse_unescaped_call in H.
  destruct (unescaped_commas input (S count) (S count - 1) pos true []) as [q [[first params]|e]] eqn:Hu;
    apply unescaped_commas_spec in Hu as [Hq Hr]; auto.
  - destruct (find_at input ")" q) as [index|] eqn:Hf.
    + apply find_at_spec in Hf as (H1 & H2 & H3).
      destruct (strip input q index (negb first) false) as [st en].
      injection H as <- <-; split; [lia|].
      replace (index + 1 - 1) with index by lia; exact H3.
    + injection H as <- <-; split; [lia | reflexivity].
  - injection H as <- <-; split; [lia | exact Hr].
Qed.

(** *** The tokens of one [prepare_tokens] call *)

Lemma sources_concat_app : forall input a b,
  sources_concat input (a ++ b) = sources_concat input a ++ sources_concat input b.
Proof.
  intros input a b; unfold sources_concat; rewrite map_app, fold_right_app.
  induction (map (token_source input) a) as [|x r IH]; simpl; [reflexivity|].
  rewrite IH, sapp_assoc; reflexivity.
Qed.

Lemma prepare_tokens_spec : forall input parser strict he w pos toks p',
  parser_wf parser -> pos < String.length input ->
  prepare_tokens input parser strict he w pos = (toks, p') ->
  pos < p' <= String.length input
  /\ sources_concat input toks = slice input pos p'
  /\ exists pre l, toks = app pre [l] /\ Forall (fun t => is_text t = true) pre
     /\ token_end l = p' /\ l <> End
     /\ (is_text l = true \/ p' = String.length input \/ get (p' - 1) input = Some ")"%char
         \/ (strict = true /\ escape_error_end input p')
         \/ exists c params st, l = UnescapedCommand c params st p'
                                /\ Parse.command c = "HORIZONTALLINE").
Proof.
  intros input parser strict he w pos toks p' [Hne Hzero] Hpos H.
  unfold prepare_tokens in H.
  destruct (regex_find_at parser input pos) as [[ms me]|] eqn:Hr.
  2:{ injection H as <- <-; split; [lia|]; split.
      - unfold sources_concat, token_source; simpl; apply sapp_nil_r.
      - exists [], (TokText (slice input pos (String.length input)) pos (String.length input)).
        repeat split; [constructor | discriminate | left; reflexivity]. }
  apply regex_find_at_spec in Hr as (H1 & H2 & H3 & c & Hc); [|exact Hne].
  assert (Hpre : exists pre,
            (if Nat.ltb pos ms then ([TokText (slice input pos ms) pos ms], ms) else ([], pos))
            = (pre, ms) /\ Forall (fun t => is_text t = true) pre
            /\ sources_concat input pre = slice input pos ms).
  { destruct (Nat.ltb_spec pos ms).
    - eexists; split; [reflexivity|]; split; [repeat constructor|].
      unfold sources_concat, token_source; simpl; apply sapp_nil_r.
    - replace ms with pos by lia; exists []; split; [reflexivity|]; split; [constructor|].
      rewrite slice_empty; reflexivity. }
  destruct Hpre as (pre & Hpre & Htext & Hsrc); rewrite Hpre, Hc in H.
  assert (Hin : In c parser) by (apply find_some in Hc; tauto).
  assert (Hcat : forall l p, get_source input l = Some (slice input ms p) -> ms <= p ->
            sources_concat input (app pre [l]) = slice input pos p).
  { intros l p Hl Hle; rewrite sources_concat_app, Hsrc.
    unfold sources_concat at 1, token_source; simpl; rewrite Hl, sapp_nil_r.
    apply slice_app; lia. }
  destruct (escaped_arguments c) eqn:Hesc.
  - assert (Hpc : 0 < parameters c).
    { destruct (parameters c) eqn:E; [|lia].
      destruct (Hzero c Hin E) as [_ E']; congruence. }
    destruct (parse_escaped_call input strict (parameters c) me) as [p r] eqn:Hp.
    apply parse_escaped_call_spec in Hp as [Hb Hcl]; [|lia|lia].
    destruct r as [params|e]; injection H as <- <-; (split; [lia|]);
      (split; [apply Hcat; [reflexivity | lia]|]);
      eexists pre, _; (split; [reflexivity|]); (split; [exact Htext|]);
      (split; [reflexivity|]); (split; [discriminate|]); tauto.
  - destruct (Nat.eq_dec (parameters c) 0) as [E|Hpc].
    + rewrite E in H; cbn [parse_unescaped_call] in H; injection H as <- <-.
      split; [lia|]; split; [apply Hcat; [reflexivity | lia]|].
      exists pre, (UnescapedCommand c [] ms me); split; [reflexivity|]; split; [exact Htext|].
      split; [reflexivity|]; split; [discriminate|].
      right; right; right; right; exists c, [], ms; split; [reflexivity|].
      apply (Hzero c Hin E).
    + destruct (parse_unescaped_call input (parameters c) me) as [p r] eqn:Hp.
      apply parse_unescaped_call_spec in Hp as [Hb Hcl]; [|lia|lia].
      destruct r as [params|e]; injection H as <- <-; (split; [lia|]);
        (split; [apply Hcat; [reflexivity | lia]|]);
        eexists pre, _; (split; [reflexivity|]); (split; [exact Htext|]);
        (split; [reflexivity|]); (split; [discriminate|]); tauto.
Qed.

Lemma parser_of_wf : forall opts, parser_wf (parser_of opts).
Proof.
  intro opts.
  assert (Hall : forall P,
    forallb (fun c => negb (String.eqb (command_match c) "")) P = true ->
    forallb (fun c => negb (Nat.eqb (parameters c) 0)
                      || (String.eqb (Parse.command c) "HORIZONTALLINE"
                          && negb (escaped_arguments c))) P = true ->
    parser_wf P).
  { intros P H1 H2; split.
    - apply Forall_forall; intros c Hc; apply (proj1 (forallb_forall _ _) H1) in Hc.
      intro E; rewrite E in Hc; discriminate.
    - intros c Hc E; apply (proj1 (forallb_forall _ _) H2) in Hc.
      rewrite E in Hc; simpl in Hc; apply andb_prop in Hc as [A B].
      apply String.eqb_eq in A; destruct (escaped_arguments c); [discriminate | auto]. }
  unfold parser_of; destruct (only_classic_markup opts); apply Hall; vm_compute; reflexivity.
Qed.

(** *** The tokens of [StringParser::next] *)

Lemma tokens_from_spec : forall input parser strict he w fuel pos,
  parser_wf parser -> pos <= String.length input -> String.length input - pos < fuel ->
  sources_concat input (tokens_from input parser strict he w fuel pos)
    = slice input pos (String.length input)
  /\ Forall (fun t => t <> End) (tokens_from input parser strict he w fuel pos).
Proof.
  intros input parser strict he w fuel; induction fuel as [|fuel IH]; intros pos Hwf Hpos Hfuel;
    [lia|].
  cbn [tokens_from].
  destruct (Nat.eqb_spec pos (String.length input)) as [->|Hne].
  - split; [rewrite slice_empty; reflexivity | constructor].
  - destruct (prepare_tokens input parser strict he w pos) as [toks p'] eqn:Hp.
    apply prepare_tokens_spec in Hp as (Hb & Hs & pre & l & -> & Ht & _ & Hl & _);
      [|exact Hwf|lia].
    destruct (IH p') as [A B]; [exact Hwf | lia | lia |].
    split.
    + rewrite sources_concat_app, Hs, A; apply slice_app; lia.
    + apply Forall_app; split; [|exact B].
      apply Forall_app; split; [|constructor; [exact Hl | constructor]].
      eapply Forall_impl; [|exact Ht]; intros [] E; discriminate.
Qed.

Lemma to_part_not_none : forall t context parser,
  to_part t context parser = inl None -> t = End.
Proof.
  intros t context parser H; destruct t; [reflexivity | ..]; simpl in H;
    destruct_matches_in H; discriminate.
Qed.

Lemma token_part_some : forall input opts context t,
  t <> End -> exists p, token_part input opts context t = Some p.
Proof.
  intros input opts context t Ht; unfold token_part.
  destruct (to_part t context (parser_of opts)) as [[p|]|err] eqn:E.
  - exists p; reflexivity.
  - apply to_part_not_none in E; contradiction.
  - eexists; reflexivity.
Qed.

Lemma do_parse_sources : forall input opts context toks,
  Forall (fun t => t <> End) toks ->
  map source (do_parse_with_source input opts context toks) = map (token_source input) toks.
Proof.
  intros input opts context toks; induction toks as [|t toks IH]; intro Hf; [reflexivity|].
  inversion Hf as [|? ? Ht Hr]; subst.
  unfold do_parse_with_source in *; simpl.
  destruct (token_part_some input opts context t Ht) as [p Hp]; rewrite Hp; simpl.
  rewrite IH by exact Hr; reflexivity.
Qed.

Lemma slice_app_middle : forall a b c,
  slice (a ++ b ++ c) (String.length a) (String.length a + String.length b) = b.
Proof.
  intros a b c; unfold slice; replace (String.length a + String.length b - String.length a)
    with (String.length b) by lia.
  induction a as [|x a IH]; simpl; [|exact IH].
  induction b as [|y b IHb]; simpl; [destruct c; reflexivity | rewrite IHb; reflexivity].
Qed.

End ParseFacts.

(** ** Properties of the parser *)

Module ParseProps.
Import Parse SliceFacts TokenView ParseFacts.

Lemma split_dot_nonempty : forall s, split_dot s <> [].
Proof.
  intros [|c r]; simpl; [discriminate|].
  destruct (Ascii.eqb c "."); [discriminate|].
  destruct (split_dot r); discriminate.
Qed.

(** C1 (code bug): [strip] tests the byte at [right], the comma itself,
    so the space before the comma of [L(foo , url)] stays in the text. *)
Theorem unescaped_link_keeps_space_before_comma :
  parse "L(foo , url)" (mkContext None None) ParseOptions_default
  = [mkPartWithSource (Link "foo " "url") "L(foo , url)"].
Proof. vm_compute; reflexivity. Qed.

(** C9: an option-like reference with an explicit plugin of type [role]
    fails with [Role reference is missing entrypoint] when the rest has no
    [:]; with a [:] the part before it becomes the entrypoint and the part
    after it the name (and the link follows from the name). *)
Theorem role_reference_entrypoint : forall input context text value f rest,
  split_value input = (text, value) ->
  fqcn_type_prefix_captures text = Some (f, "role", rest) ->
  is_fqcn f = true ->
  (split_once ":" rest = None ->
   parse_option_like input context = Err "Role reference is missing entrypoint")
  /\ (forall ep name, split_once ":" rest = Some (ep, name) ->
      contains_char ":" name = false -> contains_char "#" name = false ->
      parse_option_like input context
      = Ok (Some (mkPluginIdentifier f "role"), Some ep,
            split_dot (array_stub_replace_all name), name, value)).
Proof.
  intros input context text value f rest Hv Hc Hf.
  unfold parse_option_like; rewrite Hv, Hc, Hf; simpl.
  split.
  - intro Hn; rewrite Hn; reflexivity.
  - intros ep name Hs Hn1 Hn2; rewrite Hs, Hn1, Hn2; reflexivity.
Qed.

Lemma role_reference_entrypoint_witness :
  parse_option_like "ns.col.r#role:name" (mkContext None (Some "inherited"))
    = Err "Role reference is missing entrypoint"
  /\ parse_option_like "ns.col.r#role:ep:name" (mkContext None None)
    = Ok (Some (mkPluginIdentifier "ns.col.r" "role"), Some "ep", ["name"], "name", None).
Proof.
  split.
  - apply (proj1 (role_reference_entrypoint "ns.col.r#role:name" (mkContext None (Some "inherited"))
                    "ns.col.r#role:name" None "ns.col.r" "name"
                    eq_refl eq_refl eq_refl)).
    reflexivity.
  - apply (proj2 (role_reference_entrypoint "ns.col.r#role:ep:name" (mkContext None None)
                    "ns.col.r#role:ep:name" None "ns.col.r" "ep:name"
                    eq_refl eq_refl eq_refl) "ep" "name"); reflexivity.
Defined.

Lemma parse_option_like_link : forall input context pl ep link name value,
  parse_option_like input context = Ok (pl, ep, link, name, value) ->
  link = split_dot (array_stub_replace_all name).
Proof.
  intros input context pl ep link name value H.
  unfold parse_option_like in H.
  destruct_matches_in H; try discriminate; injection H; intros; subst; reflexivity.
Qed.

Lemma to_part_option_like : forall tok context parser pl ep link name value,
  to_part tok context parser = inl (Some (OptionName pl ep link name value))
  \/ to_part tok context parser = inl (Some (ReturnValue pl ep link name value)) ->
  link = split_dot (array_stub_replace_all name).
Proof.
  intros tok context parser pl ep link name value H.
  destruct tok; simpl in H; destruct H as [H|H];
    destruct_matches_in H; try discriminate;
    injection H; intros; subst; eapply parse_option_like_link; eassumption.
Qed.

(** C7: in every part of the parse result that is an [OptionName] or a
    [ReturnValue], [link] is [name] with its array stubs removed and split
    at the dots, and [link] is not empty. *)
Theorem option_like_link_from_name : forall s context opts x pl ep link name value,
  In x (parse s context opts) ->
  part x = OptionName pl ep link name value \/ part x = ReturnValue pl ep link name value ->
  link = split_dot (array_stub_replace_all name) /\ link <> [].
Proof.
  intros s context opts x pl ep link name value Hin Hp.
  unfold parse, do_parse_with_source in Hin.
  apply in_flat_map in Hin as [tok [_ Hx]].
  destruct (token_part s opts context tok) as [p|] eqn:Ht; [|contradiction].
  destruct Hx as [<-|[]]; simpl in Hp.
  assert (Hl : link = split_dot (array_stub_replace_all name)).
  { unfold token_part in Ht.
    destruct (to_part tok context (parser_of opts)) as [o|err] eqn:Hto.
    - subst o; apply (to_part_option_like tok context (parser_of opts) pl ep link name value).
      destruct Hp as [->| ->]; auto.
    - injection Ht as <-; destruct Hp; discriminate. }
  split; [exact Hl | rewrite Hl; apply split_dot_nonempty].
Qed.

Lemma option_like_link_from_name_witness :
  In (mkPartWithSource (OptionName None None ["foo"; "bar"] "foo[1].bar" None) "O(foo[1].bar)")
     (parse "O(foo[1].bar)" (mkContext None None) ParseOptions_default)
  /\ ["foo"; "bar"] = split_dot (array_stub_replace_all "foo[1].bar") /\ ["foo"; "bar"] <> [].
Proof.
  assert (Hin : In (mkPartWithSource (OptionName None None ["foo"; "bar"] "foo[1].bar" None) "O(foo[1].bar)")
                   (parse "O(foo[1].bar)" (mkContext None None) ParseOptions_default))
    by (vm_compute; left; reflexivity).
  split; [exact Hin|].
  apply (option_like_link_from_name "O(foo[1].bar)" (mkContext None None) ParseOptions_default
           _ None None ["foo"; "bar"] "foo[1].bar" None Hin).
  left; reflexivity.
Defined.




(** C6: the sources of the parts of [parse] concatenate to the input, and
    each source is the slice of the input at some offset. *)
Theorem parse_sources_cover_input : forall s context opts,
  fold_right String.append EmptyString (map source (parse s context opts)) = s
  /\ forall x, In x (parse s context opts) ->
     exists i, i + String.length (source x) <= String.length s
               /\ slice s i (i + String.length (source x)) = source x.
Proof.
  intros s context opts.
  assert (Hcat : fold_right String.append EmptyString (map source (parse s context opts)) = s).
  { destruct (tokens_from_spec s (parser_of opts) (opt_strict opts) (opt_helpful_errors opts)
                (opt_where opts) (S (String.length s)) 0 (parser_of_wf opts)) as [A B]; [lia | lia |].
    unfold parse, tokens; rewrite do_parse_sources by exact B.
    unfold sources_concat in A; rewrite A; apply slice_full. }
  split; [exact Hcat|].
  intros x Hx.
  apply (in_map source) in Hx; apply concat_in in Hx as (pre & post & E); rewrite Hcat in E.
  exists (String.length pre); rewrite E, !sapp_length; split; [lia|].
  apply slice_app_middle.
Qed.








End ParseProps.

(** ** The escapers, byte by byte *)

Module EscapeFacts.
Import HtmlHelper RstHelper MdHelper EscapeView SliceFacts.

Lemma bytes_map_app : forall f a b, bytes_map f (a ++ b) = bytes_map f a ++ bytes_map f b.
Proof.
  intros f a b; induction a as [|c a IH]; simpl; [reflexivity|].
  rewrite IH, sapp_assoc; reflexivity.
Qed.

Lemma bytes_map_ext : forall f g s, (forall c, f c = g c) -> bytes_map f s = bytes_map g s.
Proof. intros f g s H; induction s; simpl; [reflexivity | now rewrite H, IHs]. Qed.

Lemma bytes_map_bytes_map : forall f g s,
  bytes_map g (bytes_map f s) = bytes_map (fun c => bytes_map g (f c)) s.
Proof.
  intros f g s; induction s as [|c s IH]; simpl; [reflexivity|].
  rewrite bytes_map_app, IH; reflexivity.
Qed.

Lemma bytes_map_char : forall s, bytes_map char s = s.
Proof. induction s; simpl; [reflexivity | now rewrite IHs]. Qed.

Lemma for_all_app : forall p a b, for_all p (a ++ b) = for_all p a && for_all p b.
Proof. intros p a b; induction a; simpl; [reflexivity | now rewrite IHa, andb_assoc]. Qed.

Lemma for_all_bytes_map : forall p f s,
  (forall c, for_all p (f c) = true) -> for_all p (bytes_map f s) = true.
Proof.
  intros p f s H; induction s as [|c s IH]; simpl; [reflexivity|].
  rewrite for_all_app, H, IH; reflexivity.
Qed.

Lemma contains_char_app : forall c a b,
  contains_char c (a ++ b) = contains_char c a || contains_char c b.
Proof. intros c a b; induction a; simpl; [reflexivity | now rewrite IHa, orb_assoc]. Qed.

(** a map whose images can be decoded from their first bytes is injective *)
Lemma bytes_map_injective : forall f dec,
  dec EmptyString = None -> (forall c x, dec (f c ++ x) = Some (c, x)) ->
  forall s t, bytes_map f s = bytes_map f t -> s = t.
Proof.
  intros f dec H0 H s; induction s as [|c s IH]; intros [|d t] E; simpl in E.
  - reflexivity.
  - assert (X := H d (bytes_map f t)); rewrite <- E, H0 in X; discriminate.
  - assert (X := H c (bytes_map f s)); rewrite E, H0 in X; discriminate.
  - assert (X := H c (bytes_map f s)); rewrite E, H in X.
    injection X as -> Et; f_equal; apply IH; symmetry; exact Et.
Qed.

Lemma substring_suffix_split : forall n s, s = substring 0 n s ++ suffix n s.
Proof.
  induction n as [|n IH]; intros s; [destruct s; reflexivity|].
  destruct s as [|c s]; simpl; [reflexivity | f_equal; apply IH].
Qed.

Lemma bytes_map_safe_run : forall p g s,
  (forall c, p c = true -> g c = char c) ->
  bytes_map g (substring 0 (count_while p s) s) = substring 0 (count_while p s) s.
Proof.
  intros p g s H; induction s as [|c s IH]; simpl; [reflexivity|].
  destruct (p c) eqn:Hp; simpl; [|reflexivity].
  rewrite H by exact Hp; simpl; rewrite IH; reflexivity.
Qed.

Lemma get_suffix_add : forall i k s, get k (suffix i s) = get (i + k) s.
Proof.
  induction i as [|i IH]; intros k s; [reflexivity|].
  destruct s; simpl; [destruct k; reflexivity | apply IH].
Qed.

Lemma suffix_get : forall i s c, get i s = Some c -> suffix i s = String c (suffix (S i) s).
Proof.
  induction i as [|i IH]; intros s c H; destruct s as [|d s]; simpl in *; try discriminate.
  - injection H as ->; reflexivity.
  - apply IH; exact H.
Qed.

Lemma suffix_length : forall s, suffix (String.length s) s = EmptyString.
Proof. induction s; simpl; [reflexivity | exact IHs]. Qed.

Lemma get_some : forall i s, i < String.length s -> exists c, get i s = Some c.
Proof.
  induction i as [|i IH]; intros [|d s] H; simpl in *; try lia.
  - exists d; reflexivity.
  - apply IH; lia.
Qed.

(** one round of the loops: the run of safe bytes at [index], copied *)
Lemma safe_run_split : forall p g s index,
  (forall c, p c = true -> g c = char c) ->
  let next := index + count_while p (suffix index s) in
  bytes_map g (suffix index s) = slice s index next ++ bytes_map g (suffix next s).
Proof.
  intros p g s index H next.
  rewrite (substring_suffix_split (count_while p (suffix index s)) (suffix index s)) at 1.
  rewrite bytes_map_app, bytes_map_safe_run by exact H.
  unfold next, slice.
  replace (index + count_while p (suffix index s) - index) with (count_while p (suffix index s)) by lia.
  rewrite (substring_suffix index), suffix_suffix; reflexivity.
Qed.

(** the byte that ends a run of safe bytes is unsafe *)
Lemma run_end_byte : forall p s index,
  index <= String.length s ->
  let next := index + count_while p (suffix index s) in
  next <> String.length s ->
  next <= String.length s /\ exists c, get next s = Some c /\ p c = false.
Proof.
  intros p s index Hi next Hn.
  assert (Hle := count_while_le p (suffix index s)); rewrite length_suffix in Hle.
  split; [unfold next; lia|].
  destruct (get_some next s) as [c Hc]; [unfold next in *; lia|].
  destruct (get_count_while p (suffix index s) (count_while p (suffix index s))) as [d [Hd Hpd]].
  - rewrite get_suffix_add; fold next; rewrite Hc; discriminate.
  - reflexivity.
  - rewrite get_suffix_add in Hd; fold next in Hd; exists d; split; assumption.
Qed.

Lemma escape_loop_spec : forall safe replace s fuel index result,
  index <= String.length s -> String.length s - index < fuel ->
  (index = 0 -> result = EmptyString) ->
  cow_str (escape_loop safe replace s fuel index result)
  = result ++ bytes_map (escape_byte safe replace) (suffix index s).
Proof.
  intros safe replace s fuel; induction fuel as [|fuel IH]; intros index result Hi Hf Hr; [lia|].
  assert (Hg : forall c, safe c = true -> escape_byte safe replace c = char c)
    by (intros c Hc; unfold escape_byte; rewrite Hc; reflexivity).
  assert (Hsplit := safe_run_split safe (escape_byte safe replace) s index Hg); simpl in Hsplit.
  cbn [escape_loop]; set (next := index + count_while safe (suffix index s)) in *.
  rewrite Hsplit.
  assert (Hres : (if Nat.ltb index next then result ++ slice s index next else result)
                 = result ++ slice s index next).
  { destruct (Nat.ltb_spec index next); [reflexivity|].
    replace next with index by (unfold next in *; lia).
    rewrite slice_empty, sapp_nil_r; reflexivity. }
  destruct (Nat.eqb_spec index 0) as [H0|H0]; destruct (Nat.eqb_spec next (String.length s)) as [Hn|Hn];
    simpl.
  - rewrite Hr by exact H0; subst index; rewrite Hn, suffix_length, slice_full, sapp_nil_r; reflexivity.
  - rewrite Hres.
    destruct (run_end_byte safe s index Hi Hn) as [Hle [c [Hc Hsc]]]; fold next in Hle, Hc.
    unfold byte_at; rewrite Hc.
    rewrite IH by lia.
    rewrite (suffix_get next s c Hc); cbn [bytes_map].
    replace (escape_byte safe replace c) with (replace c) by (unfold escape_byte; rewrite Hsc; reflexivity).
    replace (next + 1) with (S next) by lia.
    rewrite !sapp_assoc; reflexivity.
  - rewrite Hres, Hn, suffix_length, sapp_nil_r; reflexivity.
  - rewrite Hres.
    destruct (run_end_byte safe s index Hi Hn) as [Hle [c [Hc Hsc]]]; fold next in Hle, Hc.
    unfold byte_at; rewrite Hc.
    rewrite IH by lia.
    rewrite (suffix_get next s c Hc); cbn [bytes_map].
    replace (escape_byte safe replace c) with (replace c) by (unfold escape_byte; rewrite Hsc; reflexivity).
    replace (next + 1) with (S next) by lia.
    rewrite !sapp_assoc; reflexivity.
Qed.

Lemma run_escape_spec : forall safe replace s,
  cow_str (run_escape safe replace s) = bytes_map (escape_byte safe replace) s.
Proof.
  intros safe replace s; unfold run_escape.
  rewrite escape_loop_spec by (reflexivity || lia); reflexivity.
Qed.

Lemma ends_with_space_get : forall s,
  ends_with_space s = true -> get (String.length s - 1) s = Some " "%char.
Proof.
  induction s as [|c s IH]; intro H; [discriminate|].
  destruct s as [|d s].
  - simpl in H |- *; apply Ascii.eqb_eq in H; subst c; reflexivity.
  - change (ends_with_space (String d s) = true) in H.
    specialize (IH H); simpl in IH |- *; rewrite Nat.sub_0_r in IH; exact IH.
Qed.

(** what the RST escape loop emits for one byte *)
Lemma rst_loop_spec : forall text eew cb fuel index result,
  index <= String.length text -> String.length text - index < fuel ->
  (index = 0 -> cb = true -> result = EmptyString /\ eew && ends_with_space text = false) ->
  cow_str (rst_loop text eew cb fuel index result)
  = result ++ bytes_map (escape_byte is_rst_safe (fun c => String "\" (char c))) (suffix index text)
    ++ (if eew && Nat.ltb index (String.length text) && ends_with_space text then "\ " else "").
Proof.
  intros text eew cb fuel; induction fuel as [|fuel IH]; intros index result Hi Hf Hr; [lia|].
  set (g := escape_byte is_rst_safe (fun c => String "\" (char c))).
  assert (Hg : forall c, is_rst_safe c = true -> g c = char c)
    by (intros c Hc; unfold g, escape_byte; rewrite Hc; reflexivity).
  assert (Hsplit := safe_run_split is_rst_safe g text index Hg); simpl in Hsplit.
  cbn [rst_loop]; set (next := index + count_while is_rst_safe (suffix index text)) in *.
  rewrite Hsplit.
  assert (Hres : (if Nat.ltb index next then result ++ slice text index next else result)
                 = result ++ slice text index next).
  { destruct (Nat.ltb_spec index next); [reflexivity|].
    replace next with index by (unfold next in *; lia).
    rewrite slice_empty, sapp_nil_r; reflexivity. }
  destruct (Nat.eqb_spec next (String.length text)) as [Hn|Hn].
  - destruct (Nat.eqb index 0 && cb && Nat.eqb next (String.length text)) eqn:Hb; cbv iota.
    + apply andb_prop in Hb as [Hb _]; apply andb_prop in Hb as [H0 Hcb].
      apply Nat.eqb_eq in H0; subst cb; destruct (Hr H0 eq_refl) as [-> Hew]; subst index.
      rewrite Hn, suffix_length, sapp_nil_r.
      unfold slice; rewrite Nat.sub_0_r, substring_full.
      destruct eew, (ends_with_space text); try discriminate Hew; simpl;
        rewrite ?andb_false_r; simpl; rewrite ?sapp_nil_r; reflexivity.
    + rewrite Hres; rewrite Hn in *; rewrite Nat.eqb_refl, andb_true_r in Hb.
      rewrite andb_true_r, Hb; cbn [cow_str]; rewrite suffix_length, sapp_nil_r.
      destruct (eew && Nat.ltb index (String.length text) && ends_with_space text);
        rewrite ?sapp_assoc, ?sapp_nil_r; reflexivity.
  - rewrite andb_false_r; cbv iota; rewrite Hres.
    destruct (run_end_byte is_rst_safe text index Hi Hn) as [Hle [c [Hc Hsc]]]; fold next in Hle, Hc.
    rewrite IH by lia.
    rewrite (suffix_get next text c Hc); cbn [bytes_map].
    replace (g c) with (String "\" (char c)) by (unfold g, escape_byte; rewrite Hsc; reflexivity).
    replace (next + 1) with (S next) by lia.
    rewrite (slice_one text next c Hc).
    assert (Hend : eew && Nat.ltb (S next) (String.length text) && ends_with_space text
                   = eew && Nat.ltb index (String.length text) && ends_with_space text).
    { destruct (ends_with_space text) eqn:He; [|rewrite !andb_false_r; reflexivity].
      apply ends_with_space_get in He.
      assert (S next <> String.length text).
      { intro E; rewrite <- E in He; simpl in He; rewrite Nat.sub_0_r, Hc in He.
        injection He as ->; discriminate Hsc. }
      destruct (Nat.ltb_spec (S next) (String.length text)); [|lia].
      destruct (Nat.ltb_spec index (String.length text)); [reflexivity | lia]. }
    rewrite Hend, !sapp_assoc; reflexivity.
Qed.

Lemma rst_escape_spec : forall text eew mnbe,
  cow_str (rst_escape text eew mnbe)
  = if Nat.eqb (String.length text) 0 then (if mnbe then "\ " else EmptyString)
    else (if eew && starts_with " " text then "\ " else EmptyString)
         ++ bytes_map (escape_byte is_rst_safe (fun c => String "\" (char c))) text
         ++ (if eew && ends_with_space text then "\ " else EmptyString).
Proof.
  intros text eew mnbe; unfold rst_escape.
  destruct (Nat.eqb_spec (String.length text) 0) as [H0|H0].
  { destruct text; [destruct mnbe; reflexivity | discriminate]. }
  assert (Hlt : Nat.ltb 0 (String.length text) = true) by (apply Nat.ltb_lt; lia).
  assert (Hfirst : match byte_at text 0 with Some c => Ascii.eqb c " " | None => false end
                   = starts_with " " text)
    by (destruct text as [|c r]; [reflexivity | simpl; rewrite andb_true_r, Ascii.eqb_sym; reflexivity]).
  rewrite Hfirst.
  destruct eew; [destruct (starts_with " " text) eqn:Hs; [|destruct (ends_with_space text) eqn:He]|];
    cbv beta iota zeta.
  - rewrite rst_loop_spec by (simpl; lia || discriminate).
    rewrite Hlt; try rewrite He; reflexivity.
  - rewrite rst_loop_spec by (simpl; lia || discriminate).
    rewrite Hlt; try rewrite He; reflexivity.
  - rewrite rst_loop_spec by (simpl; lia || (intros; split; [reflexivity | exact He])).
    rewrite He, !andb_false_r, !sapp_nil_r; reflexivity.
  - rewrite rst_loop_spec by (simpl; lia || (intros; split; reflexivity)).
    rewrite !sapp_nil_r; reflexivity.
Qed.

Lemma md_replace_bytes : forall s,
  md_replace s = bytes_map (escape_byte (fun c => negb (is_md_special c)) (fun c => String "\" (char c))) s.
Proof.
  induction s as [|c s IH]; simpl; [reflexivity|].
  rewrite IH; unfold escape_byte; destruct (is_md_special c); reflexivity.
Qed.

Ltac all_bytes := intros [[] [] [] [] [] [] [] []].

Lemma url_decode_byte : forall c x,
  url_decode_head (escape_byte is_url_safe percent_encode c ++ x) = Some (c, x).
Proof. all_bytes; intro x; reflexivity. Qed.

Lemma html_decode_byte : forall c x,
  html_decode_head (escape_byte is_html_safe
    (fun c => if Ascii.eqb c "<" then "&lt;"
              else if Ascii.eqb c ">" then "&gt;"
              else if Ascii.eqb c "&" then "&amp;" else EmptyString) c ++ x) = Some (c, x).
Proof. all_bytes; intro x; reflexivity. Qed.

Lemma url_html_decode_byte : forall c x,
  url_html_decode_head (escape_byte (fun c => is_url_safe c && is_html_safe c)
    (fun c => if Ascii.eqb c "&" then "&amp;" else percent_encode c) c ++ x) = Some (c, x).
Proof. all_bytes; intro x; reflexivity. Qed.

Lemma rst_decode_byte : forall c x,
  backslash_decode_head (escape_byte is_rst_safe (fun c => String "\" (char c)) c ++ x) = Some (c, x).
Proof. all_bytes; intro x; reflexivity. Qed.

Lemma md_decode_byte : forall c x,
  backslash_decode_head (escape_byte (fun c => negb (is_md_special c))
    (fun c => String "\" (char c)) c ++ x) = Some (c, x).
Proof. all_bytes; intro x; reflexivity. Qed.

Lemma html_byte : forall c,
  escape_byte is_html_safe
    (fun c => if Ascii.eqb c "<" then "&lt;"
              else if Ascii.eqb c ">" then "&gt;"
              else if Ascii.eqb c "&" then "&amp;" else EmptyString) c
  = if Ascii.eqb c "<" then "&lt;" else if Ascii.eqb c ">" then "&gt;"
    else if Ascii.eqb c "&" then "&amp;" else char c.
Proof. all_bytes; reflexivity. Qed.

Lemma url_html_compose_byte : forall c,
  escape_byte (fun c => is_url_safe c && is_html_safe c)
    (fun c => if Ascii.eqb c "&" then "&amp;" else percent_encode c) c
  = bytes_map (escape_byte is_html_safe
      (fun c => if Ascii.eqb c "<" then "&lt;"
                else if Ascii.eqb c ">" then "&gt;"
                else if Ascii.eqb c "&" then "&amp;" else EmptyString))
      (escape_byte is_url_safe percent_encode c).
Proof. all_bytes; reflexivity. Qed.

Lemma url_byte_safe : forall c,
  for_all (fun d => is_url_safe d || Ascii.eqb d "%") (escape_byte is_url_safe percent_encode c) = true.
Proof. all_bytes; reflexivity. Qed.

Lemma html_byte_no_angle : forall c,
  for_all (fun d => negb (Ascii.eqb d "<") && negb (Ascii.eqb d ">"))
    (if Ascii.eqb c "<" then "&lt;" else if Ascii.eqb c ">" then "&gt;"
     else if Ascii.eqb c "&" then "&amp;" else char c) = true.
Proof. all_bytes; reflexivity. Qed.

Lemma url_html_byte_quote : forall c,
  contains_char "'" (escape_byte (fun c => is_url_safe c && is_html_safe c)
    (fun c => if Ascii.eqb c "&" then "&amp;" else percent_encode c) c)
  = Ascii.eqb "'" c.
Proof. all_bytes; reflexivity. Qed.

Lemma md_replace_no_special : forall s, exists_b is_md_special s = false -> md_replace s = s.
Proof.
  induction s as [|c s IH]; simpl; [reflexivity|].
  intro H; apply orb_false_iff in H as [Hc Hs]; rewrite Hc, IH by exact Hs; reflexivity.
Qed.

Lemma url_html_byte_safe : forall c,
  for_all (fun d => is_url_safe d || Ascii.eqb d "%")
    (escape_byte (fun c => is_url_safe c && is_html_safe c)
       (fun c => if Ascii.eqb c "&" then "&amp;" else percent_encode c) c) = true.
Proof. all_bytes; reflexivity. Qed.

Lemma rst_escape_plain : forall t mnbe, t <> EmptyString ->
  cow_str (rst_escape t false mnbe)
  = bytes_map (escape_byte is_rst_safe (fun c => String "\" (char c))) t.
Proof.
  intros t mnbe Ht; rewrite rst_escape_spec; destruct t as [|a t]; [congruence|].
  cbn [String.length Nat.eqb andb]; rewrite sapp_nil_r; reflexivity.
Qed.

Lemma rst_image_nonempty : forall t, t <> EmptyString ->
  bytes_map (escape_byte is_rst_safe (fun c => String "\" (char c))) t <> EmptyString /\
  bytes_map (escape_byte is_rst_safe (fun c => String "\" (char c))) t <> "\ ".
Proof.
  intros [|c t] Ht; [congruence|].
  assert (D := rst_decode_byte c (bytes_map (escape_byte is_rst_safe (fun c => String "\" (char c))) t)).
  cbn [bytes_map]; split; intro E; rewrite E in D; [discriminate|].
  simpl in D; injection D as <- _; simpl in E; discriminate.
Qed.

End EscapeFacts.

Module EscapeProps.
Import HtmlHelper RstHelper MdHelper EscapeView EscapeFacts.

(** [URLEscaper::escape] copies every URL-safe byte and replaces every
    other byte by [%] and the two upper-case hexadecimal digits of its
    value. *)
Theorem url_escape_bytes : forall s,
  cow_str (url_escape s)
  = bytes_map (fun c => if is_url_safe c then char c else percent_encode c) s.
Proof. intro s; unfold url_escape; rewrite run_escape_spec; reflexivity. Qed.

(** [HTMLEscaper::escape] replaces [<], [>] and [&] by [&lt;], [&gt;] and
    [&amp;] and copies every other byte. *)
Theorem html_escape_bytes : forall s,
  cow_str (html_escape s)
  = bytes_map (fun c => if Ascii.eqb c "<" then "&lt;" else if Ascii.eqb c ">" then "&gt;"
                        else if Ascii.eqb c "&" then "&amp;" else char c) s.
Proof.
  intro s; unfold html_escape; rewrite run_escape_spec; apply bytes_map_ext, html_byte.
Qed.

(** [URLEscaper::escape_with_html_escape] gives the same text as
    [URLEscaper::escape] followed by [HTMLEscaper::escape]. *)
Theorem url_escape_with_html_escape_composes : forall s,
  cow_str (url_escape_with_html_escape s) = cow_str (html_escape (cow_str (url_escape s))).
Proof.
  intro s; unfold url_escape_with_html_escape, html_escape, url_escape.
  rewrite !run_escape_spec, bytes_map_bytes_map.
  apply bytes_map_ext, url_html_compose_byte.
Qed.

(** The output of both URL escapers consists of URL-safe bytes and [%]
    only. *)
Theorem url_escapers_output_url_safe : forall s,
  for_all (fun c => is_url_safe c || Ascii.eqb c "%") (cow_str (url_escape s)) = true /\
  for_all (fun c => is_url_safe c || Ascii.eqb c "%") (cow_str (url_escape_with_html_escape s)) = true.
Proof.
  intro s; split.
  - unfold url_escape; rewrite run_escape_spec; apply for_all_bytes_map, url_byte_safe.
  - unfold url_escape_with_html_escape; rewrite run_escape_spec; apply for_all_bytes_map, url_html_byte_safe.
Qed.

(** The output of [HTMLEscaper::escape] and of
    [URLEscaper::escape_with_html_escape] contains no [<] and no [>]. *)
Theorem html_escapers_no_angle_brackets : forall s,
  for_all (fun c => negb (Ascii.eqb c "<") && negb (Ascii.eqb c ">")) (cow_str (html_escape s)) = true /\
  for_all (fun c => negb (Ascii.eqb c "<") && negb (Ascii.eqb c ">"))
    (cow_str (url_escape_with_html_escape s)) = true.
Proof.
  intro s; split.
  - rewrite html_escape_bytes; apply for_all_bytes_map, html_byte_no_angle.
  - rewrite url_escape_with_html_escape_composes, html_escape_bytes.
    apply for_all_bytes_map, html_byte_no_angle.
Qed.

(** [URLEscaper::escape_with_html_escape] leaves single quotes as they are:
    its output contains a single quote exactly when its input does. *)
Theorem url_escape_with_html_escape_keeps_single_quote : forall s,
  contains_char "'" (cow_str (url_escape_with_html_escape s)) = contains_char "'" s.
Proof.
  intro s; unfold url_escape_with_html_escape; rewrite run_escape_spec.
  induction s as [|c s IH]; simpl; [reflexivity|].
  rewrite contains_char_app, url_html_byte_quote, IH; reflexivity.
Qed.

(** The three escapers of [html_helper.rs] are injective: different inputs
    give different outputs. *)
Theorem html_helper_escapers_injective : forall s t,
  (cow_str (url_escape s) = cow_str (url_escape t) -> s = t) /\
  (cow_str (url_escape_with_html_escape s) = cow_str (url_escape_with_html_escape t) -> s = t) /\
  (cow_str (html_escape s) = cow_str (html_escape t) -> s = t).
Proof.
  intros s t; unfold url_escape, url_escape_with_html_escape, html_escape; rewrite !run_escape_spec.
  split; [|split].
  - apply (bytes_map_injective _ url_decode_head); [reflexivity | exact url_decode_byte].
  - apply (bytes_map_injective _ url_html_decode_head); [reflexivity | exact url_html_decode_byte].
  - apply (bytes_map_injective _ html_decode_head); [reflexivity | exact html_decode_byte].
Qed.

(** [RSTEscaper::escape] on a non-empty text puts a backslash before every
    byte of [\<>_*`] and copies the others; with [escape_ending_whitespace]
    it adds [\ ] before a text that starts with a space and after a text
    that ends with one.  The empty text gives [\ ] under
    [must_not_be_empty] and stays empty otherwise. *)
Theorem rst_escape_bytes : forall text eew mnbe,
  cow_str (rst_escape text eew mnbe)
  = if String.eqb text EmptyString then (if mnbe then "\ " else EmptyString)
    else (if eew && starts_with " " text then "\ " else EmptyString)
         ++ bytes_map (fun c => if is_rst_safe c then char c else String "\" (char c)) text
         ++ (if eew && ends_with_space text then "\ " else EmptyString).
Proof.
  intros text eew mnbe; rewrite rst_escape_spec.
  destruct text; reflexivity.
Qed.

(** Without [escape_ending_whitespace], [RSTEscaper::escape] is injective. *)
Theorem rst_escape_injective : forall s t mnbe,
  cow_str (rst_escape s false mnbe) = cow_str (rst_escape t false mnbe) -> s = t.
Proof.
  intros s t mnbe E.
  assert (Hinj := bytes_map_injective _ backslash_decode_head eq_refl rst_decode_byte).
  assert (He : forall b, cow_str (rst_escape EmptyString false b) = if b then "\ " else EmptyString)
    by (intros []; reflexivity).
  destruct (String.eqb_spec s EmptyString) as [->|Hs]; destruct (String.eqb_spec t EmptyString) as [->|Ht].
  - reflexivity.
  - rewrite He, rst_escape_plain in E by exact Ht.
    destruct (rst_image_nonempty t Ht); destruct mnbe; congruence.
  - rewrite He, rst_escape_plain in E by exact Hs.
    destruct (rst_image_nonempty s Hs); destruct mnbe; congruence.
  - rewrite !rst_escape_plain in E by assumption; exact (Hinj s t E).
Qed.

Lemma rst_escape_injective_witness :
  "a*b" = "a*b" /\ cow_str (rst_escape "*" false true) <> cow_str (rst_escape "\*" false true).
Proof.
  split.
  - exact (rst_escape_injective "a*b" "a*b" true eq_refl).
  - intro E; apply rst_escape_injective in E; discriminate.
Defined.

(** [md_escape] is injective: different texts give different outputs. *)
Theorem md_escape_injective : forall s t,
  cow_str (md_escape s) = cow_str (md_escape t) -> s = t.
Proof.
  assert (Hm : forall s, cow_str (md_escape s) = md_replace s).
  { intro s; unfold md_escape; destruct (exists_b is_md_special s) eqn:H; simpl;
      [reflexivity | symmetry; apply md_replace_no_special, H]. }
  intros s t E; rewrite !Hm, !md_replace_bytes in E.
  exact (bytes_map_injective _ backslash_decode_head eq_refl md_decode_byte s t E).
Qed.

Lemma md_escape_injective_witness :
  "a_b" = "a_b" /\ cow_str (md_escape "*") <> cow_str (md_escape "\*").
Proof.
  split.
  - exact (md_escape_injective "a_b" "a_b" eq_refl).
  - intro E; apply md_escape_injective in E; discriminate.
Defined.

End EscapeProps.

(** ** Copy-on-write of the escapers *)

Module CopyOnWriteProps.
Import HtmlHelper RstHelper MdHelper EscapeView EscapeFacts.

Lemma bytes_map_all_safe : forall safe replace s,
  for_all safe s = true -> bytes_map (escape_byte safe replace) s = s.
Proof.
  intros safe replace s; induction s as [|c r IH]; cbn [bytes_map for_all]; [reflexivity|].
  intro H; apply andb_prop in H as [Hc Hr].
  rewrite (IH Hr); unfold escape_byte; rewrite Hc; reflexivity.
Qed.

(** C8 (as the code has it): the URL, URL-in-HTML, HTML and Markdown
    escapers return their input unchanged when no byte of it needs
    rewriting.  On such an input the RST escaper gives [\ ] for the empty
    text under [must_not_be_empty] (and the empty text otherwise), and a
    non-empty text with [\ ] added before it when it starts with a space
    and after it when it ends with one, both only under
    [escape_ending_whitespace]; so it returns the input unchanged exactly
    when neither of its two options applies. *)
Theorem escapers_copy_on_write : forall s : string,
  (for_all is_url_safe s = true -> cow_str (url_escape s) = s) /\
  (for_all (fun c => is_url_safe c && is_html_safe c) s = true ->
     cow_str (url_escape_with_html_escape s) = s) /\
  (for_all is_html_safe s = true -> cow_str (html_escape s) = s) /\
  (exists_b is_md_special s = false -> cow_str (md_escape s) = s) /\
  (forall escape_ending_whitespace must_not_be_empty : bool,
     for_all is_rst_safe s = true ->
     cow_str (rst_escape s escape_ending_whitespace must_not_be_empty)
     = (if String.eqb s EmptyString then (if must_not_be_empty then "\ " else EmptyString)
        else (if escape_ending_whitespace && starts_with " " s then "\ " else EmptyString)
             ++ s ++ (if escape_ending_whitespace && ends_with_space s then "\ " else EmptyString))
     /\ (cow_str (rst_escape s escape_ending_whitespace must_not_be_empty) = s <->
         (must_not_be_empty = true -> s <> EmptyString)
         /\ (escape_ending_whitespace = true ->
             starts_with " " s = false /\ ends_with_space s = false))).
Proof.
  intro s; split; [|split; [|split; [|split]]].
  - intro H; unfold url_escape; rewrite run_escape_all_safe; auto.
  - intro H; unfold url_escape_with_html_escape; rewrite run_escape_all_safe; auto.
  - intro H; unfold html_escape; rewrite run_escape_all_safe; auto.
  - intro H; unfold md_escape; rewrite H; reflexivity.
  - intros eew mnbe Hsafe.
    assert (Hform : cow_str (rst_escape s eew mnbe)
       = (if String.eqb s EmptyString then (if mnbe then "\ " else EmptyString)
          else (if eew && starts_with " " s then "\ " else EmptyString)
               ++ s ++ (if eew && ends_with_space s then "\ " else EmptyString))).
    { rewrite rst_escape_spec, bytes_map_all_safe by exact Hsafe; destruct s; reflexivity. }
    split; [exact Hform|]; rewrite Hform.
    destruct (String.eqb_spec s EmptyString) as [->|Hne].
    + destruct mnbe; split.
      * discriminate.
      * intros [H _]; exfalso; exact (H eq_refl eq_refl).
      * intros _; split; [discriminate | intros _; split; reflexivity].
      * intros _; reflexivity.
    + split.
      * intro E; split; [intros _; exact Hne|]; intros ->; cbn [andb] in E.
        destruct (starts_with " " s), (ends_with_space s); try (split; reflexivity);
          apply (f_equal String.length) in E; rewrite !sapp_length in E; simpl in E; lia.
      * intros [_ Hw]; destruct eew.
        -- destruct (Hw eq_refl) as [-> ->]; cbn [andb]; apply sapp_nil_r.
        -- cbn [andb]; apply sapp_nil_r.
Qed.

Lemma escapers_copy_on_write_witness :
  cow_str (url_escape "a/b?c=d") = "a/b?c=d"
  /\ cow_str (rst_escape " a" true false) = "\  a"
  /\ cow_str (rst_escape "a b" true true) = "a b".
Proof.
  destruct (escapers_copy_on_write "a/b?c=d") as (H1 & _).
  destruct (escapers_copy_on_write " a") as (_ & _ & _ & _ & H2).
  destruct (escapers_copy_on_write "a b") as (_ & _ & _ & _ & H3).
  split; [apply H1; reflexivity|].
  split; [rewrite (proj1 (H2 true false eq_refl)); reflexivity|].
  apply (proj2 (H3 true true eq_refl)); split; [discriminate | split; reflexivity].
Defined.

End CopyOnWriteProps.

(** ** Parse entry points *)

Module EntryFacts.
Import Parse Format TokenView FormatView SliceFacts ParseFacts.

Lemma parse_sources_concat : forall s context opts,
  fold_right String.append EmptyString (map source (parse s context opts)) = s.
Proof.
  intros s context opts.
  destruct (tokens_from_spec s (parser_of opts) (opt_strict opts) (opt_helpful_errors opts)
              (opt_where opts) (S (String.length s)) 0 (parser_of_wf opts)) as [A B]; [lia | lia |].
  unfold parse, tokens; rewrite do_parse_sources by exact B.
  unfold sources_concat in A; rewrite A; apply slice_full.
Qed.

Lemma nth_error_map_enumerate {A B : Type} (f : nat * A -> B) : forall l k i,
  nth_error (map f (enumerate_from k l)) i = option_map (fun x => f (k + i, x)) (nth_error l i).
Proof.
  induction l as [|x l IH]; intros k [|i]; simpl; try reflexivity.
  - rewrite Nat.add_0_r; reflexivity.
  - rewrite IH; destruct (nth_error l i); simpl; [rewrite Nat.add_succ_r; reflexivity | reflexivity].
Qed.

Lemma length_map_enumerate {A B : Type} (f : nat * A -> B) : forall l k,
  List.length (map f (enumerate_from k l)) = List.length l.
Proof. induction l as [|x l IH]; intros k; simpl; [reflexivity | now rewrite IH]. Qed.

Lemma map_enumerate_ext {A B : Type} (f g : nat * A -> B) : forall l k,
  (forall i x, f (i, x) = g (i, x)) -> map f (enumerate_from k l) = map g (enumerate_from k l).
Proof. induction l as [|x l IH]; intros k H; simpl; [reflexivity | now rewrite H, IH]. Qed.

Lemma do_parse_without_source_parts : forall input opts context toks,
  do_parse_without_source input opts context toks
  = map part (do_parse_with_source input opts context toks).
Proof.
  intros input opts context toks; induction toks as [|t toks IH]; [reflexivity|].
  unfold do_parse_without_source, do_parse_with_source in *; simpl.
  rewrite map_app, IH; destruct (token_part input opts context t); reflexivity.
Qed.

Lemma to_part_error : forall t context parser m,
  to_part t context parser = inl (Some (Error m)) -> exists st en, t = TokError m st en.
Proof.
  intros t context parser m H; destruct t; simpl in H;
    destruct_matches_in H; try discriminate; injection H as <-; eauto.
Qed.

Lemma prepare_tokens_errors : forall input parser strict he w pos,
  Forall (fun c => command_match c <> EmptyString) parser ->
  Forall (tok_error_composed input he w) (fst (prepare_tokens input parser strict he w pos)).
Proof.
  intros input parser strict he w pos Hne.
  assert (Htext : forall x st en, tok_error_composed input he w (TokText x st en))
    by (intros x st en m st' en' E; discriminate).
  unfold prepare_tokens.
  destruct (regex_find_at parser input pos) as [[ms me]|] eqn:Hr.
  2:{ repeat constructor; apply Htext. }
  apply regex_find_at_spec in Hr as (_ & _ & _ & c & Hc); [|exact Hne].
  rewrite Hc.
  assert (Hpre : Forall (tok_error_composed input he w)
                   (fst (if Nat.ltb pos ms then ([TokText (slice input pos ms) pos ms], ms) else ([], pos))))
    by (destruct (Nat.ltb pos ms); repeat constructor; apply Htext).
  destruct (if Nat.ltb pos ms then ([TokText (slice input pos ms) pos ms], ms) else ([], pos))
    as [pre p0]; simpl in Hpre.
  destruct (escaped_arguments c);
    [destruct (parse_escaped_call input strict (parameters c) me) as [p [params|e]]
    |destruct (parse_unescaped_call input (parameters c) me) as [p [params|e]]];
    simpl; apply Forall_app; (split; [exact Hpre|]); repeat constructor;
    intros m st en E; try discriminate; injection E as <- <- <-; eauto.
Qed.

Lemma tokens_from_errors : forall input parser strict he w fuel pos,
  Forall (fun c => command_match c <> EmptyString) parser ->
  Forall (tok_error_composed input he w) (tokens_from input parser strict he w fuel pos).
Proof.
  intros input parser strict he w fuel; induction fuel as [|fuel IH]; intros pos Hne;
    cbn [tokens_from]; [constructor|].
  destruct (Nat.eqb pos (String.length input)); [constructor|].
  assert (H := prepare_tokens_errors input parser strict he w pos Hne).
  destruct (prepare_tokens input parser strict he w pos) as [toks p']; simpl in H.
  apply Forall_app; split; [exact H | apply IH, Hne].
Qed.

Lemma parse_error_composed : forall s context opts x m,
  In x (parse s context opts) -> part x = Error m ->
  exists c st en e, m = compose_parsing_error s (opt_helpful_errors opts) (opt_where opts) c st en e.
Proof.
  intros s context opts x m Hin Hx.
  unfold parse, do_parse_with_source in Hin.
  apply in_flat_map in Hin as [tok [Htok Hx']].
  destruct (token_part s opts context tok) as [p|] eqn:Ht; [|contradiction].
  destruct Hx' as [<-|[]]; simpl in Hx; subst p.
  unfold token_part in Ht.
  destruct (to_part tok context (parser_of opts)) as [o|err] eqn:Hto.
  - subst o; apply to_part_error in Hto as (st & en & ->).
    assert (Hf := tokens_from_errors s (parser_of opts) (opt_strict opts) (opt_helpful_errors opts)
                    (opt_where opts) (S (String.length s)) 0 (proj1 (parser_of_wf opts))).
    rewrite Forall_forall in Hf; destruct (Hf _ Htok m st en eq_refl) as (c & e & ->); eauto.
  - injection Ht as <-; eauto.
Qed.

Lemma contains_app_l : forall p a b, contains p b = true -> contains p (a ++ b) = true.
Proof.
  intros p a b H; induction a as [|c a IH]; simpl; [exact H | rewrite IH, orb_true_r; reflexivity].
Qed.

Lemma tokens_from_at_end : forall input parser strict he w fuel,
  tokens_from input parser strict he w fuel (String.length input) = [].
Proof. intros; destruct fuel; cbn [tokens_from]; [reflexivity | now rewrite Nat.eqb_refl]. Qed.

Lemma find_char_from_at : forall c t r n i s,
  suffix i s = t ++ String c r -> contains_char c t = false -> String.length t < n ->
  find_char_from c s n i = Some (i + String.length t).
Proof.
  intros c t; induction t as [|d t IH]; intros r n i s Hs Ht Hn; destruct n as [|n]; simpl in Hn; try lia.
  - cbn [find_char_from]; unfold byte_at; rewrite <- get_suffix, Hs; simpl.
    rewrite Ascii.eqb_refl, Nat.add_0_r; reflexivity.
  - simpl in Ht; apply orb_false_iff in Ht as [Hcd Ht].
    cbn [find_char_from]; unfold byte_at; rewrite <- get_suffix, Hs; simpl; rewrite Hcd.
    rewrite (IH r n (S i) s); [simpl; f_equal; lia | | exact Ht | lia].
    replace (S i) with (i + 1) by lia; rewrite suffix_suffix, Hs; reflexivity.
Qed.

Section Extending.
Variable formatter : Appender -> Part -> option string -> Appender.
Hypothesis Hf : forall a p u, formatter a p u = a ++ formatter EmptyString p u.

Lemma fold_formatter_app : forall lp cp par a,
  fold_left (fun a p => formatter a p (part_url lp cp p)) par a
  = a ++ fold_left (fun a p => formatter a p (part_url lp cp p)) par EmptyString.
Proof.
  intros lp cp par; induction par as [|p par IH]; intro a; simpl; [symmetry; apply sapp_nil_r|].
  rewrite IH, (IH (formatter "" p _)), Hf, sapp_assoc; reflexivity.
Qed.

Lemma append_paragraph_app : forall a par lp ps pe pempty cp,
  append_paragraph a par formatter lp ps pe pempty cp
  = a ++ append_paragraph EmptyString par formatter lp ps pe pempty cp.
Proof.
  intros; unfold append_paragraph, push_str.
  rewrite fold_formatter_app, (fold_formatter_app _ _ _ (EmptyString ++ ps)).
  destruct par; simpl; rewrite !sapp_assoc; reflexivity.
Qed.

End Extending.

Lemma concat_cons : forall sep x r, String.concat sep (x :: r) = x ++ sep_prefixed sep r.
Proof.
  intros sep x r; revert x; induction r as [|y r IH]; intro x; [symmetry; apply sapp_nil_r|].
  change (String.concat sep (x :: y :: r)) with (x ++ sep ++ String.concat sep (y :: r)).
  rewrite IH; reflexivity.
Qed.

Lemma antsibull_html_append_extends : forall a p u,
  AntsibullHTML.append a p u = a ++ AntsibullHTML.append EmptyString p u.
Proof.
  intros a p u; destruct p; unfold AntsibullHTML.append, AntsibullHTML.append_tag,
    AntsibullHTML.append_link, AntsibullHTML.append_fqcn, AntsibullHTML.append_option_like,
    push_str, push_cow_str, push_owned_string;
    repeat match goal with |- context [match ?x with _ => _ end] => destruct x end;
    simpl; rewrite ?sapp_assoc; reflexivity.
Qed.

End EntryFacts.

Module EntryProps.
Import Parse Format TokenView FormatView SliceFacts ParseFacts EntryFacts.

(** [parse_without_sources] (through [do_parse_without_source]) returns
    exactly the parts of [parse], in the same order. *)
Theorem parse_without_sources_parts : forall s context opts,
  parse_without_sources_impl s context opts = map part (parse s context opts).
Proof. intros s context opts; apply do_parse_without_source_parts. Qed.

(** [parse_paragraphs] returns one list per paragraph, in order, and the
    sources of the parts of the [i]-th list put together give back the
    [i]-th paragraph; [parse_paragraphs_without_sources] returns the parts
    of these lists. *)
Theorem parse_paragraphs_per_paragraph : forall ps context opts,
  List.length (parse_paragraphs ps context opts) = List.length ps
  /\ (forall i p, nth_error ps i = Some p ->
      exists parts, nth_error (parse_paragraphs ps context opts) i = Some parts
                    /\ fold_right String.append EmptyString (map source parts) = p)
  /\ parse_paragraphs_without_sources ps context opts = map (map part) (parse_paragraphs ps context opts).
Proof.
  intros ps context opts; split; [|split].
  - apply length_map_enumerate.
  - intros i p Hp; unfold parse_paragraphs; rewrite nth_error_map_enumerate, Hp; simpl.
    eexists; split; [reflexivity | apply parse_sources_concat].
  - unfold parse_paragraphs_without_sources, parse_paragraphs; rewrite map_map.
    apply map_enumerate_ext; intros i x; apply parse_without_sources_parts.
Qed.

(** Every [Error] part that [parse] returns carries a message built by
    [_compose_parsing_error] from the options' [helpful_errors] and
    [where]: [While parsing <source or command> at index <n><where>: <error>].
    In particular the tokenizer's internal error
    [cannot find command] never reaches the result. *)
Theorem parse_error_messages : forall s context opts x m,
  In x (parse s context opts) -> part x = Error m ->
  exists c st en e, m = compose_parsing_error s (opt_helpful_errors opts) (opt_where opts) c st en e.
Proof. exact parse_error_composed. Qed.

Lemma parse_error_messages_witness :
  In (mkPartWithSource (Error ("While parsing " ++ dquote ++ "C(x" ++ dquote ++ " at index 3: "
                               ++ closing_error)) "C(x")
     (parse "a C(x" (mkContext None None) ParseOptions_default)
  /\ exists c st en e,
     "While parsing " ++ dquote ++ "C(x" ++ dquote ++ " at index 3: " ++ closing_error
     = compose_parsing_error "a C(x" true None c st en e.
Proof.
  assert (Hin : In (mkPartWithSource (Error ("While parsing " ++ dquote ++ "C(x" ++ dquote
                      ++ " at index 3: " ++ closing_error)) "C(x")
                   (parse "a C(x" (mkContext None None) ParseOptions_default))
    by (vm_compute; right; left; reflexivity).
  split; [exact Hin|].
  exact (parse_error_messages "a C(x" (mkContext None None) ParseOptions_default _ _ Hin eq_refl).
Defined.

(** In the result of [parse_paragraphs], every error message of the
    [i]-th list (counting from 0) contains [ of paragraph <i+1>]. *)
Theorem parse_paragraphs_error_paragraph : forall ps context opts i parts x m,
  nth_error (parse_paragraphs ps context opts) i = Some parts ->
  In x parts -> part x = Error m ->
  contains (" of paragraph " ++ of_nat (S i)) m = true.
Proof.
  intros ps context opts i parts x m Hi Hx Hm.
  unfold parse_paragraphs in Hi; rewrite nth_error_map_enumerate in Hi.
  destruct (nth_error ps i) as [p|]; [|discriminate]; simpl in Hi; injection Hi as <-.
  destruct (parse_error_composed _ _ _ x m Hx Hm) as (c & st & en & e & ->).
  unfold compose_parsing_error, add_paragraph_to_where; cbn [opt_where].
  rewrite Nat.add_1_r.
  do 4 apply contains_app_l.
  destruct (opt_where opts) as [w|]; [rewrite sapp_assoc|];
    apply (contains_app _ EmptyString).
Qed.

Lemma parse_paragraphs_error_paragraph_witness :
  nth_error (parse_paragraphs ["ok"; "C(x"] (mkContext None None) ParseOptions_default) 1
  = Some [mkPartWithSource (Error ("While parsing " ++ dquote ++ "C(x" ++ dquote
                                   ++ " at index 1 of paragraph 2: " ++ closing_error)) "C(x"]
  /\ contains " of paragraph 2" ("While parsing " ++ dquote ++ "C(x" ++ dquote
                                  ++ " at index 1 of paragraph 2: " ++ closing_error) = true.
Proof.
  assert (H : nth_error (parse_paragraphs ["ok"; "C(x"] (mkContext None None) ParseOptions_default) 1
              = Some [mkPartWithSource (Error ("While parsing " ++ dquote ++ "C(x" ++ dquote
                                       ++ " at index 1 of paragraph 2: " ++ closing_error)) "C(x"])
    by (vm_compute; reflexivity).
  split; [exact H|].
  exact (parse_paragraphs_error_paragraph ["ok"; "C(x"] (mkContext None None) ParseOptions_default 1 _ _ _
           H (or_introl eq_refl) eq_refl).
Defined.



(** [C(...)] takes its argument verbatim: for a text [t] without [)],
    [C(t)] parses to one [Code t] part whose source is the whole input,
    backslashes and spaces included, also under [strict]. *)
Theorem code_argument_verbatim : forall t context opts,
  contains_char ")" t = false ->
  parse ("C(" ++ t ++ ")") context opts = [mkPartWithSource (Code t) ("C(" ++ t ++ ")")].
Proof.
  intros t context opts Ht.
  set (s := "C(" ++ t ++ ")").
  assert (Hlen : String.length s = S (S (S (String.length t)))).
  { unfold s; simpl; rewrite sapp_length; simpl; lia. }
  assert (Hfind : regex_find_at (parser_of opts) s 0 = Some (0, 2)).
  { unfold regex_find_at; rewrite Hlen, Nat.sub_0_r; cbn [find_command_from].
    unfold parser_of; destruct (only_classic_markup opts); vm_compute; reflexivity. }
  assert (Hcmd : command_map_get (parser_of opts) (slice s 0 2) = Some CODE).
  { replace (slice s 0 2) with "C(" by (unfold s, slice; simpl; destruct (t ++ ")"); reflexivity).
    unfold parser_of; destruct (only_classic_markup opts); vm_compute; reflexivity. }
  assert (Hclose : find_at s ")" 2 = Some (2 + String.length t)).
  { unfold find_at; apply (find_char_from_at _ _ EmptyString); [reflexivity | exact Ht | rewrite Hlen; lia]. }
  assert (Hcall : parse_unescaped_call s 1 2 = (3 + String.length t, Ok [t])).
  { unfold parse_unescaped_call; cbn [unescaped_commas Nat.sub]; rewrite Hclose.
    unfold strip; cbn [negb app]; f_equal; [lia|]; do 2 f_equal.
    unfold slice; replace (2 + String.length t - 2) with (String.length t) by lia.
    unfold s; simpl; f_equal.
    clear; induction t; simpl; [reflexivity | now rewrite IHt]. }
  unfold parse, tokens.
  cbn [tokens_from]; rewrite Hlen; cbn [Nat.eqb].
  unfold prepare_tokens at 1; rewrite Hfind; cbn [Nat.ltb Nat.leb]; rewrite Hcmd.
  cbn [escaped_arguments CODE new_classic parameters]. 
  rewrite Hcall.
  replace (3 + String.length t) with (String.length s) by (rewrite Hlen; lia).
  rewrite tokens_from_at_end.
  unfold do_parse_with_source, token_part, get_source; cbn [flat_map app].
  rewrite slice_full.
  reflexivity.
Qed.

Lemma code_argument_verbatim_witness :
  parse "C(a\b , c)" (mkContext None None) (ParseOptions_strict ParseOptions_default)
  = [mkPartWithSource (Code "a\b , c") "C(a\b , c)"].
Proof.
  exact (code_argument_verbatim "a\b , c" (mkContext None None) (ParseOptions_strict ParseOptions_default)
           eq_refl).
Defined.

(** For a formatter that only appends to its appender, [append_paragraphs]
    appends the paragraphs rendered one by one by [append_paragraph],
    joined by [par_sep]: [par_sep] goes between two paragraphs, never
    before the first or after the last. *)
Theorem append_paragraphs_join : forall formatter a paragraphs lp ps pe psep pempty cp,
  (forall a p u, formatter a p u = a ++ formatter EmptyString p u) ->
  append_paragraphs a paragraphs formatter lp ps pe psep pempty cp
  = a ++ String.concat psep
           (map (fun par => append_paragraph EmptyString par formatter lp ps pe pempty cp) paragraphs).
Proof.
  intros formatter a paragraphs lp ps pe psep pempty cp Hf.
  unfold append_paragraphs.
  assert (Hrest : forall l a, fold_left (fun (st : bool * Appender) paragraph =>
                    let '(first, a) := st in
                    (false, append_paragraph (if first then a else push_str a psep) paragraph formatter lp
                              ps pe pempty cp)) l (false, a)
                  = (false, a ++ sep_prefixed psep
                       (map (fun par => append_paragraph EmptyString par formatter lp ps pe pempty cp) l))).
  { induction l as [|par l IH]; intro a'; simpl; [rewrite sapp_nil_r; reflexivity|].
    rewrite IH, append_paragraph_app by exact Hf; unfold push_str; rewrite !sapp_assoc; reflexivity. }
  destruct paragraphs as [|par l]; [simpl; rewrite sapp_nil_r; reflexivity|].
  cbn [fold_left map]; rewrite Hrest, append_paragraph_app by exact Hf; cbn [snd].
  rewrite concat_cons, sapp_assoc; reflexivity.
Qed.

Lemma append_paragraphs_join_witness :
  append_paragraphs "" [[Text "a<b"]; []] AntsibullHTML.append NoLinkProvider "<p>" "</p>" "|" "-" None
  = "<p>a&lt;b</p>|<p>-</p>"
  /\ append_antsibull_html_paragraphs "" [[Text "a"]; [Bold "b"]] NoLinkProvider None
  = "<p>a</p><p><b>b</b></p>".
Proof.
  split.
  - rewrite (append_paragraphs_join AntsibullHTML.append "" [[Text "a<b"]; []] NoLinkProvider
               "<p>" "</p>" "|" "-" None antsibull_html_append_extends).
    vm_compute; reflexivity.
  - unfold append_antsibull_html_paragraphs.
    rewrite (append_paragraphs_join AntsibullHTML.append "" [[Text "a"]; [Bold "b"]] NoLinkProvider
               "<p>" "</p>" "" "" None antsibull_html_append_extends).
    vm_compute; reflexivity.
Defined.

(** An option or return value reference without a [FQCN#type:] prefix:
    after [ignore:] it has no plugin and no entrypoint and its name is the
    rest; otherwise it takes the plugin and the entrypoint of the context,
    and fails only when the context's plugin is a role and the context
    has no entrypoint. *)
Theorem option_like_without_plugin_prefix : forall input context text value,
  split_value input = (text, value) -> fqcn_type_prefix_captures text = None ->
  (starts_with IGNORE_MARKER text = true ->
   let name := suffix (String.length IGNORE_MARKER) text in
   contains_char ":" name = false -> contains_char "#" name = false ->
   parse_option_like input context = Ok (None, None, split_dot (array_stub_replace_all name), name, value))
  /\ (starts_with IGNORE_MARKER text = false ->
      contains_char ":" text = false -> contains_char "#" text = false ->
      parse_option_like input context
      = match current_plugin context, role_entrypoint context with
        | Some pi, None =>
            if String.eqb (type_ pi) "role" then Err "Role reference is missing entrypoint"
            else Ok (Some pi, None, split_dot (array_stub_replace_all text), text, value)
        | plugin, entrypoint => Ok (plugin, entrypoint, split_dot (array_stub_replace_all text), text, value)
        end).
Proof.
  intros input context text value Hv Hc; unfold parse_option_like; rewrite Hv, Hc; split.
  - intros Hs Hn1 Hn2; rewrite Hs; cbv iota beta; rewrite Hn1, Hn2; reflexivity.
  - intros Hs Hn1 Hn2; rewrite Hs; cbv iota beta.
    assert (Hsplit : split_once ":" text = None).
    { clear -Hn1; induction text as [|d r IH]; [reflexivity|]; simpl in Hn1 |- *.
      apply orb_false_iff in Hn1 as [H1 H2]; rewrite H1, IH by exact H2; reflexivity. }
    destruct (current_plugin context) as [pi|], (role_entrypoint context) as [ep|];
      try (destruct (String.eqb (type_ pi) "role")); rewrite ?Hsplit; cbv iota beta;
      rewrite ?Hn1, ?Hn2; reflexivity.
Qed.

Lemma option_like_without_plugin_prefix_witness :
  parse_option_like "ignore:a.b" (mkContext (Some (mkPluginIdentifier "ns.col.m" "module")) None)
  = Ok (None, None, ["a"; "b"], "a.b", None)
  /\ parse_option_like "a.b=x" (mkContext (Some (mkPluginIdentifier "ns.col.m" "module")) None)
  = Ok (Some (mkPluginIdentifier "ns.col.m" "module"), None, ["a"; "b"], "a.b", Some "x").
Proof.
  split.
  - exact (proj1 (option_like_without_plugin_prefix "ignore:a.b"
                    (mkContext (Some (mkPluginIdentifier "ns.col.m" "module")) None)
                    "ignore:a.b" None eq_refl eq_refl) eq_refl eq_refl eq_refl).
  - exact (proj2 (option_like_without_plugin_prefix "a.b=x"
                    (mkContext (Some (mkPluginIdentifier "ns.col.m" "module")) None)
                    "a.b" (Some "x") eq_refl eq_refl) eq_refl eq_refl eq_refl).
Defined.

End EntryProps.
